(** * Double Q-Learning: a shallow embedding of [Algorithms/double_q_learning.py]

    The development follows the Python source line by line.

    - A value table ([Q_a], [Q_b], the merged [Q]) is a Python [dict] from
      states to one-dimensional numpy arrays; it is modelled as a [gmap] from
      states to lists of scalars. The model keeps what the tables hold, not
      which dict and array objects hold it: it is exact for tables that are
      separate objects with one array per entry (what two dict literals and
      [np.zeros] give). A caller can also pass one dict, or one array, under
      two names, and a store through one name is then seen through the
      other. What the properties below say of the tables after a pass is
      chosen so as not to depend on it: the key sets, the lengths of the
      rows, the values read before the one store of the pass, the entry
      stored, and the entries at other indices than the one stored to.
    - The scalars (numpy [float64] values, Python numbers) are kept abstract:
      the class [Scalar] only provides the operations the source applies to
      them, so every statement below holds for any arithmetic, rounding
      included.
    - The global numpy random state and the environment are threaded
      explicitly through every call ([RandomSource], [Environment]).
    - Python exceptions are the [Raise] outcome, and the [while True] loop of
      an episode is bounded by a fuel argument whose exhaustion is the
      [OutOfFuel] outcome. *)

From Stdlib Require Import ZArith Lia.
From stdpp Require Import base option list gmap fin_maps.

(** ** Outcomes of a computation *)

Inductive exn : Type :=
  | KeyError
  | IndexError
  | ValueError
  | AttributeError.

Inductive outcome (A : Type) : Type :=
  | Ret (a : A)
  | Raise (e : exn)
  | OutOfFuel.

Arguments Ret {A} a.
Arguments Raise {A} e.
Arguments OutOfFuel {A}.

#[global] Instance outcome_ret : MRet outcome := fun A a => Ret a.

#[global] Instance outcome_bind : MBind outcome := fun A B f m =>
  match m with
  | Ret a => f a
  | Raise e => Raise e
  | OutOfFuel => OutOfFuel
  end.

Definition returns {A : Type} (m : outcome A) : Prop := exists a, m = Ret a.

(** ** Interfaces of the collaborators *)

(** The arithmetic the source performs on table entries, rewards and
    hyper-parameters; [fleb x y] is the comparison [x <= y]. *)
Class Scalar (F : Type) : Type := {
  fzero : F;
  fadd : F -> F -> F;
  fsub : F -> F -> F;
  fmul : F -> F -> F;
  fleb : F -> F -> bool
}.

(** The numpy global random state: [random_uniform] is the raw draw of
    [np.random.uniform(0, 1)] and [random_integers lo hi] the raw draw of
    [np.random.randint(lo, hi)] for [lo < hi]. *)
Class RandomSource (F G : Type) : Type := {
  random_uniform : G -> F * G;
  random_integers : nat -> nat -> G -> nat * G
}.

(** The environment object: the two attributes probed for the number of
    actions ([env.action_space.n], then [env.nA]), [env.reset()] and
    [env.step(action)]; the fourth component of a transition is ignored by
    the source and left out. *)
Class Environment (State F E : Type) : Type := {
  action_space_n : E -> option nat;
  nA : E -> option nat;
  reset : E -> State * E;
  step : E -> nat -> State * F * bool * E
}.

(** ** numpy arrays and Python dicts *)

Section Numpy.
Context {F : Type} `{Scalar F}.

(** [np.zeros(n)] *)
Definition np_zeros (n : nat) : list F := replicate n fzero.

(** [x + y] on one-dimensional arrays: element-wise for equal lengths, an
    array of length one is broadcast, any other pair of shapes raises
    [ValueError]. *)
Definition np_add (x y : list F) : outcome (list F) :=
  if Nat.eqb (length x) (length y) then Ret (zip_with fadd x y)
  else match x, y with
       | [a], _ => Ret (fadd a <$> y)
       | _, [b] => Ret ((fun a => fadd a b) <$> x)
       | _, _ => Raise ValueError
       end.

(** The left-to-right scan of [np.argmax]: the running maximum [best] at
    index [besti] is replaced by the entry [x] at index [i] only when
    [x <= best] fails. *)
Fixpoint argmax_scan (best : F) (besti i : nat) (l : list F) : nat :=
  match l with
  | [] => besti
  | x :: l' =>
      if fleb x best then argmax_scan best besti (S i) l'
      else argmax_scan x i (S i) l'
  end.

(** [np.argmax(v)]; the empty array raises [ValueError]. *)
Definition np_argmax (v : list F) : outcome nat :=
  match v with
  | [] => Raise ValueError
  | x :: l => Ret (argmax_scan x 0 1 l)
  end.

(** [v[i]] *)
Definition arr_getitem (v : list F) (i : nat) : outcome F :=
  match v !! i with
  | Some x => Ret x
  | None => Raise IndexError
  end.

(** [v[i] = x] *)
Definition arr_setitem (v : list F) (i : nat) (x : F) : outcome (list F) :=
  if Nat.ltb i (length v) then Ret (<[i:=x]> v) else Raise IndexError.
End Numpy.

Section Dict.
Context {State : Type} `{Countable State} {A : Type}.

(** [d[k]] *)
Definition dict_getitem (d : gmap State A) (k : State) : outcome A :=
  match d !! k with
  | Some v => Ret v
  | None => Raise KeyError
  end.

(** [d.setdefault(k, dflt)]: the value found or inserted, and the dict. *)
Definition dict_setdefault (d : gmap State A) (k : State) (dflt : A) : A * gmap State A :=
  match d !! k with
  | Some v => (v, d)
  | None => (dflt, <[k:=dflt]> d)
  end.
End Dict.

(** [np.random.randint(lo, hi)]; [ValueError] when [lo >= hi]. *)
Definition np_random_randint {F G : Type} `{RandomSource F G}
    (lo hi : nat) (g : G) : outcome (nat * G) :=
  if Nat.leb hi lo then Raise ValueError else Ret (random_integers lo hi g).

(** ** The policy and the learner *)

Section DoubleQLearning.
Context {State : Type} `{Countable State}.
Context {F : Type} `{Scalar F}.
Context {G : Type} `{RandomSource F G}.
Context {E : Type} `{Environment State F E}.

(** [class EpsilonGreedyPolicy]: the object holds the two tables. The
    learner's local names [Q_a] and [Q_b] are the same objects (lines
    68-76), so the tables live in this record only. *)
Record EpsilonGreedyPolicy : Type := {
  Q_a : gmap State (list F);
  Q_b : gmap State (list F);
  epsilon : F
}.

(** [EpsilonGreedyPolicy.sample_action] *)
Definition sample_action (self : EpsilonGreedyPolicy) (obs : State) (g : G)
    : outcome (nat * G) :=
  va ← dict_getitem (Q_a self) obs;
  vb ← dict_getitem (Q_b self) obs;
  action_values ← np_add va vb;
  let '(draw, g1) := random_uniform g in
  if fleb draw (epsilon self)
  then np_random_randint 0 (length action_values) g1
  else action ← np_argmax action_values; Ret (action, g1).

(** What one pass through the body of the [while True] loop observed and
    did: the locals of the pass and the two tables after it. *)
Record transition : Type := {
  tr_state : State;
  tr_action : nat;
  tr_next_state : State;
  tr_reward : F;
  tr_done : bool;
  tr_coin : nat;
  tr_max_action : nat;
  tr_Q_a : gmap State (list F);
  tr_Q_b : gmap State (list F)
}.

(** Lines 95-97: the branch taken when the coin is truthy. *)
Definition update_a (num_actions : nat) (discount_factor alpha : F)
    (Qa Qb : gmap State (list F)) (state : State) (action : nat)
    (next_state : State) (reward : F)
    : outcome (nat * gmap State (list F) * gmap State (list F)) :=
  let '(va_next, Qa1) := dict_setdefault Qa next_state (np_zeros num_actions) in
  max_action ← np_argmax va_next;
  row ← dict_getitem Qa1 state;
  old ← arr_getitem row action;
  let '(vb_next, Qb1) := dict_setdefault Qb next_state (np_zeros num_actions) in
  boot ← arr_getitem vb_next max_action;
  row' ← dict_getitem Qa1 state;
  old' ← arr_getitem row' action;
  let new := fadd old (fmul alpha (fsub (fadd reward (fmul discount_factor boot)) old')) in
  target ← dict_getitem Qa1 state;
  target' ← arr_setitem target action new;
  Ret (max_action, <[state:=target']> Qa1, Qb1).

(** Lines 99-101: the branch taken when the coin is falsy. *)
Definition update_b (num_actions : nat) (discount_factor alpha : F)
    (Qa Qb : gmap State (list F)) (state : State) (action : nat)
    (next_state : State) (reward : F)
    : outcome (nat * gmap State (list F) * gmap State (list F)) :=
  let '(vb_next, Qb1) := dict_setdefault Qb next_state (np_zeros num_actions) in
  max_action ← np_argmax vb_next;
  row ← dict_getitem Qb1 state;
  old ← arr_getitem row action;
  let '(va_next, Qa1) := dict_setdefault Qa next_state (np_zeros num_actions) in
  boot ← arr_getitem va_next max_action;
  row' ← dict_getitem Qb1 state;
  old' ← arr_getitem row' action;
  let new := fadd old (fmul alpha (fsub (fadd reward (fmul discount_factor boot)) old')) in
  target ← dict_getitem Qb1 state;
  target' ← arr_setitem target action new;
  Ret (max_action, Qa1, <[state:=target']> Qb1).

(** Lines 90-101: one pass through the loop body, up to the table update. *)
Definition loop_body (num_actions : nat) (discount_factor alpha : F)
    (policy : EpsilonGreedyPolicy) (env : E) (g : G) (state : State)
    : outcome (transition * EpsilonGreedyPolicy * E * G) :=
  '(action, g1) ← sample_action policy state g;
  let '(next_state, reward, done, env1) := step env action in
  '(coin, g2) ← np_random_randint 0 2 g1;
  '(max_action, Qa', Qb') ←
    (if Nat.eqb coin 0
     then update_b num_actions discount_factor alpha
            (Q_a policy) (Q_b policy) state action next_state reward
     else update_a num_actions discount_factor alpha
            (Q_a policy) (Q_b policy) state action next_state reward);
  Ret ({| tr_state := state; tr_action := action;
          tr_next_state := next_state; tr_reward := reward;
          tr_done := done; tr_coin := coin; tr_max_action := max_action;
          tr_Q_a := Qa'; tr_Q_b := Qb' |},
       {| Q_a := Qa'; Q_b := Qb'; epsilon := epsilon policy |},
       env1, g2).

(** The state of one episode between two passes of the loop: the locals
    [i], [R] and [state], the objects the loop mutates, and the passes
    made so far. *)
Record episode_state : Type := {
  ep_i : nat;
  ep_R : F;
  ep_state : State;
  ep_policy : EpsilonGreedyPolicy;
  ep_env : E;
  ep_rng : G;
  ep_trace : list transition
}.

(** Lines 88-109: the [while True] loop. *)
Fixpoint while_loop (fuel : nat) (num_actions : nat) (discount_factor alpha : F)
    (st : episode_state) : outcome episode_state :=
  match fuel with
  | O => OutOfFuel
  | S fuel' =>
      '(t, policy', env', g') ←
        loop_body num_actions discount_factor alpha
          (ep_policy st) (ep_env st) (ep_rng st) (ep_state st);
      let st' := {| ep_i := ep_i st + 1;
                    ep_R := fadd (ep_R st) (tr_reward t);
                    ep_state := tr_next_state t;
                    ep_policy := policy'; ep_env := env'; ep_rng := g';
                    ep_trace := ep_trace st ++ [t] |} in
      if tr_done t then Ret st'
      else while_loop fuel' num_actions discount_factor alpha st'
  end.

(** Lines 81-86: the start of an episode. *)
Definition episode_start (num_actions : nat)
    (policy : EpsilonGreedyPolicy) (env : E) (g : G) : episode_state :=
  let '(state, env1) := reset env in
  let Qa1 := <[state:=np_zeros num_actions]> (Q_a policy) in
  let Qb1 := <[state:=np_zeros num_actions]> (Q_b policy) in
  {| ep_i := 0; ep_R := fzero; ep_state := state;
     ep_policy := {| Q_a := Qa1; Q_b := Qb1; epsilon := epsilon policy |};
     ep_env := env1; ep_rng := g; ep_trace := [] |}.

(** The state of the learner between two episodes. *)
Record learner_state : Type := {
  ls_stats : list (nat * F);
  ls_policy : EpsilonGreedyPolicy;
  ls_env : E;
  ls_rng : G;
  ls_episodes : list (list transition)
}.

(** Lines 80-111: the [for] loop over [range(num_episodes)]. *)
Fixpoint episodes (fuel : nat) (count : nat) (num_actions : nat)
    (discount_factor alpha : F) (ls : learner_state) : outcome learner_state :=
  match count with
  | O => Ret ls
  | S count' =>
      st ← while_loop fuel num_actions discount_factor alpha
             (episode_start num_actions (ls_policy ls) (ls_env ls) (ls_rng ls));
      episodes fuel count' num_actions discount_factor alpha
        {| ls_stats := ls_stats ls ++ [(ep_i st, ep_R st)];
           ls_policy := ep_policy st; ls_env := ep_env st; ls_rng := ep_rng st;
           ls_episodes := ls_episodes ls ++ [ep_trace st] |}
  end.

(** Lines 63-66: the number of actions. *)
Definition get_num_actions (env : E) : outcome nat :=
  match action_space_n env with
  | Some n => Ret n
  | None =>
      match nA env with
      | Some n => Ret n
      | None => Raise AttributeError
      end
  end.

(** Line 112: [episode_lengths, episode_returns = zip( *stats)]. Unpacking
    the empty [zip()] into two names raises [ValueError]. *)
Definition unzip_stats (stats : list (nat * F)) : outcome (list nat * list F) :=
  match stats with
  | [] => Raise ValueError
  | _ :: _ => Ret (fst <$> stats, snd <$> stats)
  end.

(** Lines 114-116: the merged table, built key by key over [Q_a.keys()].
    A [gmap] does not record the order in which its keys were inserted; the
    order of this traversal has no bearing on whether a table is returned
    nor on the table, and only decides which exception is reported when
    several keys fail ([merge_along] below takes the order as given). *)
Definition merge_step (Qb : gmap State (list F)) (key : State) (va : list F)
    (acc : outcome (gmap State (list F))) : outcome (gmap State (list F)) :=
  Q ← acc;
  vb ← dict_getitem Qb key;
  v ← np_add va vb;
  Ret (<[key:=v]> Q).

Definition merge_tables (Qa Qb : gmap State (list F)) : outcome (gmap State (list F)) :=
  map_fold (merge_step Qb) (Ret ∅) Qa.

(** Lines 114-116 again, with the order in which [Q_a.keys()] hands out the
    keys made explicit: [keys] is that order (for a Python dict, the order
    in which the keys were inserted) and [Q] the merged table built so far.
    The first key whose row cannot be fetched or added ends the loop. *)
Fixpoint merge_along (keys : list State) (Qa Qb Q : gmap State (list F))
    : outcome (gmap State (list F)) :=
  match keys with
  | [] => Ret Q
  | key :: keys' =>
      va ← dict_getitem Qa key;
      vb ← dict_getitem Qb key;
      v ← np_add va vb;
      merge_along keys' Qa Qb (<[key:=v]> Q)
  end.

(** What a call leaves behind: the returned pair [(Q, (episode_lengths,
    episode_returns))], the objects it mutated, and the passes of every
    episode. *)
Record run_result : Type := {
  res_Q : gmap State (list F);
  res_episode_lengths : list nat;
  res_episode_returns : list F;
  res_policy : EpsilonGreedyPolicy;
  res_env : E;
  res_rng : G;
  res_episodes : list (list transition)
}.

(** [tqdm(range(n))] iterates over the same items as [range(n)]. *)
Definition episode_range (show_episodes : bool) (num_episodes : Z) : nat :=
  if show_episodes then Z.to_nat num_episodes else Z.to_nat num_episodes.

(** Lines 68-76: an argument that is not [None] replaces the policy's
    table; afterwards the learner and the policy use the same two tables. *)
Definition install_tables (policy : EpsilonGreedyPolicy)
    (Q_a_arg Q_b_arg : option (gmap State (list F))) : EpsilonGreedyPolicy :=
  let policy1 :=
    match Q_a_arg with
    | None => policy
    | Some Qa => {| Q_a := Qa; Q_b := Q_b policy; epsilon := epsilon policy |}
    end in
  match Q_b_arg with
  | None => policy1
  | Some Qb => {| Q_a := Q_a policy1; Q_b := Qb; epsilon := epsilon policy1 |}
  end.

(** [double_q_learning] *)
Definition double_q_learning (fuel : nat) (env : E) (policy : EpsilonGreedyPolicy)
    (num_episodes : Z) (Q_a_arg Q_b_arg : option (gmap State (list F)))
    (discount_factor alpha : F) (show_episodes : bool) (g : G)
    : outcome run_result :=
  num_actions ← get_num_actions env;
  let policy' := install_tables policy Q_a_arg Q_b_arg in
  ls ← episodes fuel (episode_range show_episodes num_episodes) num_actions
         discount_factor alpha
         {| ls_stats := []; ls_policy := policy'; ls_env := env; ls_rng := g;
            ls_episodes := [] |};
  '(episode_lengths, episode_returns) ← unzip_stats (ls_stats ls);
  Q ← merge_tables (Q_a (ls_policy ls)) (Q_b (ls_policy ls));
  Ret {| res_Q := Q;
         res_episode_lengths := episode_lengths;
         res_episode_returns := episode_returns;
         res_policy := ls_policy ls; res_env := ls_env ls; res_rng := ls_rng ls;
         res_episodes := ls_episodes ls |}.

End DoubleQLearning.

Arguments EpsilonGreedyPolicy State {_ _} F.
Arguments transition State {_ _} F.
Arguments episode_state State {_ _} F G E.
Arguments learner_state State {_ _} F G E.
Arguments run_result State {_ _} F G E.

(** ** A concrete instance: integer scalars, a tape of random draws and a
    corridor of three steps *)

Module Chain.

#[global] Instance Z_scalar : Scalar Z := {|
  fzero := 0%Z; fadd := Z.add; fsub := Z.sub; fmul := Z.mul; fleb := Z.leb
|}.

(** The random source is a tape of raw draws; an exhausted tape keeps
    drawing zero. *)
Definition tape_next (g : list nat) : nat * list nat :=
  match g with
  | [] => (0, [])
  | x :: g' => (x, g')
  end.

#[global] Instance tape_source : RandomSource Z (list nat) := {|
  random_uniform g := let '(x, g') := tape_next g in (Z.of_nat x, g');
  random_integers lo hi g :=
    let '(x, g') := tape_next g in (lo + x mod (hi - lo), g')
|}.

(** A corridor: the position is the state, every action moves one cell to
    the right, the reward is the action taken, and the episode is over on
    reaching cell 3. Two actions, advertised through [nA] only. *)
#[global] Instance corridor : Environment nat Z nat := {|
  action_space_n _ := None;
  nA _ := Some 2;
  reset _ := (0, 0);
  step pos action :=
    (S pos, Z.of_nat action, Nat.leb 3 (S pos), S pos)
|}.

(** A treadmill: one cell, one action, reward 1, and [done] never comes.
    Its state is the number of steps taken so far. *)
Inductive treadmill_env : Type := Treadmill (steps : nat).

#[global] Instance treadmill : Environment nat Z treadmill_env := {|
  action_space_n _ := Some 1;
  nA _ := None;
  reset e := (0, e);
  step e action := let 'Treadmill k := e in (0, 1%Z, false, Treadmill (S k))
|}.

(** An object with neither [action_space] nor [nA]. *)
Inductive bare_env : Type := Bare.

#[global] Instance bare : Environment nat Z bare_env := {|
  action_space_n _ := None;
  nA _ := None;
  reset e := (0, e);
  step e action := (0, 0%Z, true, e)
|}.

Definition empty_policy (eps : Z) : EpsilonGreedyPolicy nat Z :=
  {| Q_a := ∅; Q_b := ∅; epsilon := eps |}.

(** Tables in which the two estimators disagree on the best action in
    cell 1: [Q_a] prefers action 1, [Q_b] prefers action 0. *)
Definition seeded_policy : EpsilonGreedyPolicy nat Z :=
  {| Q_a := {[0 := [0; 0]%Z; 1 := [0; 5]%Z]};
     Q_b := {[0 := [0; 0]%Z; 1 := [7; 3]%Z]};
     epsilon := 0%Z |}.

(** One pass from cell 0 with [seeded_policy]: the draw 5 exceeds epsilon,
    the greedy action is 0, and the coin comes up 1. *)
Definition seeded_pass : transition nat Z :=
  {| tr_state := 0; tr_action := 0; tr_next_state := 1; tr_reward := 0%Z;
     tr_done := false; tr_coin := 1; tr_max_action := 1;
     tr_Q_a := {[0 := [3; 0]%Z; 1 := [0; 5]%Z]};
     tr_Q_b := {[0 := [0; 0]%Z; 1 := [7; 3]%Z]} |}.

Definition seeded_policy_after : EpsilonGreedyPolicy nat Z :=
  {| Q_a := tr_Q_a seeded_pass; Q_b := tr_Q_b seeded_pass; epsilon := 0%Z |}.

(** Tables that only know cell 0, with zero rows, and one pass from cell 0
    that meets cell 1 for the first time. *)
Definition fresh_policy : EpsilonGreedyPolicy nat Z :=
  {| Q_a := {[0 := [0; 0]%Z]}; Q_b := {[0 := [0; 0]%Z]}; epsilon := 0%Z |}.

Definition fresh_pass : transition nat Z :=
  {| tr_state := 0; tr_action := 0; tr_next_state := 1; tr_reward := 0%Z;
     tr_done := false; tr_coin := 1; tr_max_action := 0;
     tr_Q_a := {[0 := [0; 0]%Z; 1 := [0; 0]%Z]};
     tr_Q_b := {[0 := [0; 0]%Z; 1 := [0; 0]%Z]} |}.

Definition fresh_policy_after : EpsilonGreedyPolicy nat Z :=
  {| Q_a := tr_Q_a fresh_pass; Q_b := tr_Q_b fresh_pass; epsilon := 0%Z |}.

(** One pass from cell 0 with [seeded_policy] that explores and comes up
    tails: the draw 0 does not exceed epsilon, the random action is 1 (with
    reward 1), and the coin is 0. [Q_b[0][1]] moves from 0 to
    [0 + 1 * (1 + 1 * Q_a[1][0] - 0) = 1], with [max_action = 0] the argmax
    of [Q_b[1] = [7; 3]]. *)
Definition tails_pass : transition nat Z :=
  {| tr_state := 0; tr_action := 1; tr_next_state := 1; tr_reward := 1%Z;
     tr_done := false; tr_coin := 0; tr_max_action := 0;
     tr_Q_a := {[0 := [0; 0]%Z; 1 := [0; 5]%Z]};
     tr_Q_b := {[0 := [0; 1]%Z; 1 := [7; 3]%Z]} |}.

Definition tails_policy_after : EpsilonGreedyPolicy nat Z :=
  {| Q_a := tr_Q_a tails_pass; Q_b := tr_Q_b tails_pass; epsilon := 0%Z |}.

(** Two episodes in the corridor from empty tables with epsilon 5: the
    tape decides every exploration draw and every coin. *)
Definition two_episodes_tape : list nat :=
  [0; 1; 1;  9; 1;  3; 0; 0;  0; 0; 1;  0; 1; 0;  9; 0].

Definition two_episodes (fuel : nat) (show_episodes : bool)
    : outcome (run_result nat Z (list nat) nat) :=
  double_q_learning fuel 0 (empty_policy 5) 2 None None 1%Z 1%Z
    show_episodes two_episodes_tape.

(** What the call leaves behind (bounds 10 and up are enough). *)
Definition two_episodes_result : run_result nat Z (list nat) nat :=
  Eval vm_compute in
    match two_episodes 10 true with
    | Ret res => res
    | _ => {| res_Q := ∅; res_episode_lengths := []; res_episode_returns := [];
              res_policy := empty_policy 5; res_env := 0; res_rng := [];
              res_episodes := [] |}
    end.

(** A call whose [Q_a] argument holds a state, 5, that the corridor never
    visits and that [Q_b] does not hold. *)
Definition unsynced_call : outcome (run_result nat Z (list nat) nat) :=
  double_q_learning 10 0 (empty_policy 5) 1
    (Some {[5 := [0%Z; 0%Z]]}) (Some ∅) 1%Z 1%Z true [].

(** Two tables at merge time in which state 1 has rows of different
    lengths, 3 and 2, and state 2 has a row in the first table only. *)
Definition lopsided_a : gmap nat (list Z) :=
  {[1 := [0; 0; 0]%Z; 2 := [0; 0]%Z]}.

Definition lopsided_b : gmap nat (list Z) :=
  {[1 := [0; 0]%Z]}.

End Chain.

(** ** A second instance: rewards that are [np.int64] values *)

Module Jackpot.

(** A [np.int64] scalar: a signed integer of 64 bits. *)
Record int64 : Type := Int64 { int64_value : Z }.

(** The value that 64 bits keep of an integer: the arithmetic of [np.int64]
    scalars wraps around. *)
Definition wrap (z : Z) : int64 :=
  Int64 ((z + 2 ^ 63) mod 2 ^ 64 - 2 ^ 63).

#[global] Instance int64_scalar : Scalar int64 := {|
  fzero := Int64 0;
  fadd x y := wrap (int64_value x + int64_value y);
  fsub x y := wrap (int64_value x - int64_value y);
  fmul x y := wrap (int64_value x * int64_value y);
  fleb x y := Z.leb (int64_value x) (int64_value y)
|}.

#[global] Instance int64_tape_source : RandomSource int64 (list nat) := {|
  random_uniform g :=
    let '(x, g') := Chain.tape_next g in (Int64 (Z.of_nat x), g');
  random_integers lo hi g :=
    let '(x, g') := Chain.tape_next g in (lo + x mod (hi - lo), g')
|}.

(** A machine with a single lever: every pull pays [2^62] and the episode is
    over after the second pull. Its state is the number of pulls so far. *)
Inductive jackpot_env : Type := Pulls (k : nat).

#[global] Instance jackpot : Environment nat int64 jackpot_env := {|
  action_space_n _ := Some 1;
  nA _ := None;
  reset _ := (0, Pulls 0);
  step e action :=
    let 'Pulls k := e in (S k, Int64 (2 ^ 62), Nat.leb 2 (S k), Pulls (S k))
|}.

Definition jackpot_policy : EpsilonGreedyPolicy nat int64 :=
  {| Q_a := ∅; Q_b := ∅; epsilon := Int64 0 |}.

(** One episode on the machine. With a single action the passes do not
    depend on what the tables hold. *)
Definition jackpot_call : outcome (run_result nat int64 (list nat) jackpot_env) :=
  double_q_learning 5 (Pulls 0) jackpot_policy 1 None None (Int64 1) (Int64 1)
    true [].

(** What the call leaves behind. *)
Definition jackpot_result : run_result nat int64 (list nat) jackpot_env :=
  Eval vm_compute in
    match jackpot_call with
    | Ret res => res
    | _ => {| res_Q := ∅; res_episode_lengths := []; res_episode_returns := [];
              res_policy := jackpot_policy; res_env := Pulls 0; res_rng := [];
              res_episodes := [] |}
    end.

End Jackpot.


(** ** Specification-level notions *)

Section Notions.
Context {State : Type} `{Countable State}.
Context {F : Type} `{Scalar F}.
Context {G : Type} `{RandomSource F G}.
Context {E : Type} `{Environment State F E}.

(** [<=] on scalars is a total preorder (true of the reals, and of floats
    without NaN). *)
Definition fleb_total : Prop :=
  forall x y : F, fleb x y = true \/ fleb y x = true.

Definition fleb_transitive : Prop :=
  forall x y z : F, fleb x y = true -> fleb y z = true -> fleb x z = true.

(** The contract of [np.random.randint]: the draw lies in [[lo, hi)]. *)
Definition randint_in_range : Prop :=
  forall (lo hi : nat) (g : G),
    lo < hi -> lo <= (random_integers lo hi g).1 < hi.

(** [x] is a largest entry of [v], found at index [i], and no entry before
    [i] is as large. *)
Definition first_maximum (v : list F) (i : nat) : Prop :=
  exists x, v !! i = Some x /\
    (forall j y, v !! j = Some y -> fleb y x = true) /\
    (forall j y, j < i -> v !! j = Some y -> fleb x y = false).

(** The temporal-difference target written at [Q[state][action]]. *)
Definition td_value (discount_factor alpha reward old boot : F) : F :=
  fadd old (fmul alpha (fsub (fadd reward (fmul discount_factor boot)) old)).

(** What a successful pass through lines 95-97 did, with [Qu] the table
    that is written and [Qo] the other one. *)
Definition td_update_spec (num_actions : nat) (discount_factor alpha : F)
    (Qu Qo : gmap State (list F)) (state : State) (action : nat)
    (next_state : State) (reward : F)
    (max_action : nat) (Qu' Qo' : gmap State (list F)) : Prop :=
  let Qu1 := (dict_setdefault Qu next_state (np_zeros num_actions)).2 in
  let Qo1 := (dict_setdefault Qo next_state (np_zeros num_actions)).2 in
  exists (vu_next vo_next row : list F) (old boot : F),
    Qu1 !! next_state = Some vu_next /\
    Qo1 !! next_state = Some vo_next /\
    np_argmax vu_next = Ret max_action /\
    Qu1 !! state = Some row /\
    row !! action = Some old /\
    vo_next !! max_action = Some boot /\
    Qu' = <[state := <[action := td_value discount_factor alpha reward old boot]> row]> Qu1 /\
    Qo' = Qo1.

(** The two tables have the same key set. *)
Definition synced (policy : EpsilonGreedyPolicy State F) : Prop :=
  dom (Q_a policy) = dom (Q_b policy).

(** Every row of a table has one entry per action. *)
Definition well_shaped (num_actions : nat) (Q : gmap State (list F)) : Prop :=
  forall s v, Q !! s = Some v -> length v = num_actions.

(** Both tables of a policy are well shaped. *)
Definition shaped (num_actions : nat) (policy : EpsilonGreedyPolicy State F) : Prop :=
  well_shaped num_actions (Q_a policy) /\ well_shaped num_actions (Q_b policy).

(** The tables that the learner can reach from [p0]: any number of
    episode starts (lines 84-86) and of completed passes through the loop
    body (lines 90-101), in any order and from any state of the
    collaborators. *)
Inductive reachable (num_actions : nat) (discount_factor alpha : F)
    (p0 : EpsilonGreedyPolicy State F) : EpsilonGreedyPolicy State F -> Prop :=
  | reach_initial : reachable num_actions discount_factor alpha p0 p0
  | reach_episode_start p (env : E) (g : G) :
      reachable num_actions discount_factor alpha p0 p ->
      reachable num_actions discount_factor alpha p0
        (ep_policy (episode_start num_actions p env g))
  | reach_loop_body p (env : E) (g : G) state t p' env' g' :
      reachable num_actions discount_factor alpha p0 p ->
      loop_body num_actions discount_factor alpha p env g state
        = Ret (t, p', env', g') ->
      reachable num_actions discount_factor alpha p0 p'.

(** An environment state from which every sequence of valid actions reaches
    [done]. *)
Inductive halts (num_actions : nat) : E -> Prop :=
  | halts_intro env :
      (forall action, action < num_actions ->
         (step env action).1.2 = false -> halts num_actions (step env action).2) ->
      halts num_actions env.

(** Every episode of the environment terminates. *)
Definition terminating (num_actions : nat) : Prop :=
  forall env : E, halts num_actions (reset env).2.

(** The rewards of the passes of one episode, added up in the order of the
    passes, starting from zero. *)
Definition episode_return (ep : list (transition State F)) : F :=
  fold_left fadd (tr_reward <$> ep) fzero.

(** The passes of a finished episode: only the last one saw [done]. *)
Definition complete_episode (ep : list (transition State F)) : Prop :=
  exists init last,
    ep = init ++ [last] /\ tr_done last = true /\
    Forall (fun t => tr_done t = false) init.

(** The passes [ts] form a path that starts in state [s]: each pass starts
    where the one before it ended (line 103, [state = next_state]). *)
Fixpoint path_from (s : State) (ts : list (transition State F)) : Prop :=
  match ts with
  | [] => True
  | t :: ts' => tr_state t = s /\ path_from (tr_next_state t) ts'
  end.

(** The states that the passes [ts] ended in. *)
Definition next_states (ts : list (transition State F)) : gset State :=
  list_to_set (tr_next_state <$> ts).

(** The states that the passes [ts] started or ended in. *)
Definition visited (ts : list (transition State F)) : gset State :=
  list_to_set (tr_state <$> ts) ∪ next_states ts.

(** [t] records a completed pass through the loop body. *)
Definition observed_pass (num_actions : nat) (discount_factor alpha : F)
    (t : transition State F) : Prop :=
  exists policy (env : E) (g : G) policy' env' g',
    loop_body num_actions discount_factor alpha policy env g (tr_state t)
      = Ret (t, policy', env', g').

(** What the traversal of lines 114-116 has produced once the keys of [m]
    have been handled. *)
Definition merge_outcome_spec (Qb : gmap State (list F)) (r : outcome (gmap State (list F)))
    (m : gmap State (list F)) : Prop :=
  match r with
  | Ret Q =>
      dom Q = dom m /\
      forall k va, m !! k = Some va ->
        exists vb v, Qb !! k = Some vb /\ np_add va vb = Ret v /\ Q !! k = Some v
  | Raise e =>
      (e = KeyError /\ exists k, is_Some (m !! k) /\ Qb !! k = None) \/
      (e = ValueError /\ exists k va vb,
         m !! k = Some va /\ Qb !! k = Some vb /\ np_add va vb = Raise ValueError)
  | OutOfFuel => False
  end.

(** What lines 95-97 did to the table [Qu] they write, with [Qo] the other
    table, both as they were when the pass began, and [Qu'] the written
    table after the pass. [max_action] is the argmax of the [next_state] row
    of [Qu]; entry [action] of the row of [state] has moved to the
    temporal-difference target computed from its old value and from the
    entry at [max_action] of the [next_state] row of [Qo]; the other entries
    of that row are as they were. A missing [next_state] row counts as
    zeros. *)
Definition td_cell_update (num_actions : nat) (discount_factor alpha : F)
    (Qu Qo : gmap State (list F)) (state : State) (action : nat)
    (next_state : State) (reward : F) (max_action : nat)
    (Qu' : gmap State (list F)) : Prop :=
  let zeros := np_zeros num_actions in
  np_argmax (default zeros (Qu !! next_state)) = Ret max_action /\
  exists (row row' : list F) (old boot : F),
    Qu !! state = Some row /\
    row !! action = Some old /\
    default zeros (Qo !! next_state) !! max_action = Some boot /\
    Qu' !! state = Some row' /\
    row' !! action = Some (td_value discount_factor alpha reward old boot) /\
    length row' = length row /\
    forall j, j <> action -> row' !! j = row !! j.

(** The passes [ts] are what the environment, in state [env] and showing
    state [s], answered to the actions taken: every pass starts in the state
    the one before it ended in (line 103) and records the transition that
    [env.step(action)] returned (lines 91-92). *)
Fixpoint follows_env (env : E) (s : State) (ts : list (transition State F)) : Prop :=
  match ts with
  | [] => True
  | t :: ts' =>
      tr_state t = s /\
      (step env (tr_action t)).1 = (tr_next_state t, tr_reward t, tr_done t) /\
      follows_env (step env (tr_action t)).2 (tr_next_state t) ts'
  end.

(** The environment after the actions of the passes [ts]. *)
Definition env_after (env : E) (ts : list (transition State F)) : E :=
  fold_left (fun e t => (step e (tr_action t)).2) ts env.

(** The episodes [eps] are what the environment [env] went through: each
    episode begins with [env.reset()] (line 84), follows the environment
    from the state that [reset] returned, and ends with the first pass that
    saw [done]; the next episode continues with the environment as the
    last pass left it. *)
Fixpoint env_run (env : E) (eps : list (list (transition State F))) : Prop :=
  match eps with
  | [] => True
  | ep :: eps' =>
      follows_env (reset env).2 (reset env).1 ep /\
      complete_episode ep /\
      env_run (env_after (reset env).2 ep) eps'
  end.

(** The environment after the episodes [eps]. *)
Definition envs_after (env : E) (eps : list (list (transition State F))) : E :=
  fold_left (fun e ep => env_after (reset e).2 ep) eps env.

(** What the first pass [t] of an episode shows of the rows of the start
    state [s]: in both tables the row has [num_actions] entries and every
    entry other than [action] is zero, and the entry that the pass wrote is
    the temporal-difference target computed from the old value zero. The
    bootstrap value [boot] is zero when the pass came back to [s], and is
    read in the other table, at [max_action] of the row of [next_state],
    otherwise. *)
Definition first_pass_from_zero (num_actions : nat) (discount_factor alpha : F)
    (t : transition State F) : Prop :=
  let s := tr_state t in
  let written := if decide (tr_coin t = 0) then tr_Q_b t else tr_Q_a t in
  let other := if decide (tr_coin t = 0) then tr_Q_a t else tr_Q_b t in
  exists (rw ro : list F) (boot : F),
    written !! s = Some rw /\ other !! s = Some ro /\
    length rw = num_actions /\ length ro = num_actions /\
    (forall j, j < num_actions -> j <> tr_action t ->
       rw !! j = Some fzero /\ ro !! j = Some fzero) /\
    (if decide (tr_next_state t = s) then boot = fzero
     else exists v, other !! tr_next_state t = Some v /\
                    v !! tr_max_action t = Some boot) /\
    rw !! tr_action t
      = Some (td_value discount_factor alpha (tr_reward t) fzero boot).

End Notions.

(** * Properties *)

Section BindLemmas.
Context {A B : Type}.

Lemma bind_Ret (m : outcome A) (f : A -> outcome B) (b : B) :
  m ≫= f = Ret b <-> exists a, m = Ret a /\ f a = Ret b.
Proof.
  split.
  - destruct m as [a| |]; simpl; intros Hm; try discriminate. by exists a.
  - intros (a & -> & Hf). exact Hf.
Qed.

Lemma bind_Ret_l (a : A) (f : A -> outcome B) : Ret a ≫= f = f a.
Proof. reflexivity. Qed.

End BindLemmas.

Ltac inv_bind_fresh H :=
  let a := fresh "x" in
  let Ha := fresh "Hx" in
  apply bind_Ret in H; destruct H as (a & Ha & H).

Tactic Notation "inv_bind" hyp(H) := inv_bind_fresh H.

Tactic Notation "inv_bind" hyp(H) "as" simple_intropattern(a) ident(Ha) :=
  apply bind_Ret in H; destruct H as (a & Ha & H).

Section ArgmaxProperties.
Context {F : Type} `{Scalar F}.
Hypothesis Htotal : fleb_total (F:=F).
Hypothesis Htrans : fleb_transitive (F:=F).

Lemma fleb_refl (x : F) : fleb x x = true.
Proof. by destruct (Htotal x x). Qed.

Lemma argmax_scan_first_maximum (l pre : list F) (best : F) (besti : nat) :
  pre !! besti = Some best ->
  (forall j y, pre !! j = Some y -> fleb y best = true) ->
  (forall j y, j < besti -> pre !! j = Some y -> fleb best y = false) ->
  first_maximum (pre ++ l) (argmax_scan best besti (length pre) l).
Proof.
  revert pre best besti.
  induction l as [|x l IH]; intros pre best besti Hbest Hmax Hfirst; simpl.
  - rewrite app_nil_r. exists best. eauto.
  - replace (pre ++ x :: l) with ((pre ++ [x]) ++ l) by by rewrite <- app_assoc.
    replace (S (length pre)) with (length (pre ++ [x]))
      by (rewrite length_app; simpl; lia).
    destruct (fleb x best) eqn:Hx.
    + apply IH.
      * rewrite lookup_app_l; [done|]. by eapply lookup_lt_Some.
      * intros j y Hj. apply lookup_app_Some in Hj as [Hj|[_ Hj]]; [eauto|].
        apply list_lookup_singleton_Some in Hj as [_ <-]. done.
      * intros j y Hlt Hj. apply lookup_app_Some in Hj as [Hj|[Hge _]]; [eauto|].
        apply lookup_lt_Some in Hbest. lia.
    + assert (Hbx : fleb best x = true).
      { destruct (Htotal best x) as [?|Hc]; [done|congruence]. }
      apply IH.
      * rewrite lookup_app_r; [|done]. by rewrite Nat.sub_diag.
      * intros j y Hj. apply lookup_app_Some in Hj as [Hj|[_ Hj]].
        -- eapply Htrans; [|exact Hbx]. eauto.
        -- apply list_lookup_singleton_Some in Hj as [_ <-]. apply fleb_refl.
      * intros j y Hlt Hj. apply lookup_app_Some in Hj as [Hj|[Hge _]]; [|lia].
        destruct (fleb x y) eqn:Hxy; [|done].
        rewrite (Htrans x y best Hxy (Hmax _ _ Hj)) in Hx. discriminate.
Qed.

Lemma np_argmax_first_maximum (v : list F) :
  v <> [] -> exists i, np_argmax v = Ret i /\ first_maximum v i.
Proof.
  destruct v as [|x l]; [done|]. intros _. exists (argmax_scan x 0 1 l).
  split; [done|].
  apply (argmax_scan_first_maximum l [x] x 0); [done| |].
  - intros j y Hj. apply list_lookup_singleton_Some in Hj as [_ <-]. apply fleb_refl.
  - intros j y Hlt. lia.
Qed.

End ArgmaxProperties.

Section ArgmaxRange.
Context {F : Type} `{Scalar F}.

Lemma argmax_scan_lt (l : list F) (best : F) (besti i : nat) :
  besti < i -> argmax_scan best besti i l < i + length l.
Proof.
  revert best besti i. induction l as [|x l IH]; intros best besti i Hlt; simpl.
  - lia.
  - destruct (fleb x best).
    + specialize (IH best besti (S i)). lia.
    + specialize (IH x i (S i)). lia.
Qed.

Lemma np_argmax_lt (v : list F) (i : nat) :
  np_argmax v = Ret i -> i < length v.
Proof.
  destruct v as [|x l]; [done|]. simpl. intros [= <-].
  pose proof (argmax_scan_lt l x 0 1). lia.
Qed.

Lemma np_argmax_returns (v : list F) :
  0 < length v -> exists i, np_argmax v = Ret i /\ i < length v.
Proof.
  destruct v as [|x l]; simpl; [lia|]. intros _.
  eexists; split; [done|]. pose proof (argmax_scan_lt l x 0 1). lia.
Qed.

Lemma np_add_same_length (x y : list F) :
  length x = length y -> np_add x y = Ret (zip_with fadd x y).
Proof. intros Hl. unfold np_add. by rewrite Hl, Nat.eqb_refl. Qed.

Lemma length_np_zeros (n : nat) : length (np_zeros (F:=F) n) = n.
Proof. apply length_replicate. Qed.

End ArgmaxRange.

Section PolicyProperties.
Context {State : Type} `{Countable State}.
Context {F : Type} `{Scalar F}.
Context {G : Type} `{RandomSource F G}.

(** C5. For a state present in both tables, [sample_action] works on
    [combined = Q_a[state] + Q_b[state]], the element-wise sum. When the
    uniform draw satisfies [draw <= epsilon], the action is the draw of
    [np.random.randint(0, len(combined))], which lies in
    [0 .. len(combined)-1]; otherwise the action is [np.argmax(combined)]:
    an index of a largest entry, and the lowest such index. *)
Theorem sample_action_spec
    (Htotal : fleb_total (F:=F)) (Htrans : fleb_transitive (F:=F))
    (Hrange : randint_in_range (F:=F) (G:=G))
    (self : EpsilonGreedyPolicy State F) (obs : State) (g : G)
    (va vb : list F) :
  Q_a self !! obs = Some va ->
  Q_b self !! obs = Some vb ->
  length va = length vb ->
  0 < length va ->
  let combined := zip_with fadd va vb in
  let draw := (random_uniform g).1 in
  let g1 := (random_uniform g).2 in
  if fleb draw (epsilon self)
  then exists action g2,
         sample_action self obs g = Ret (action, g2) /\
         random_integers 0 (length combined) g1 = (action, g2) /\
         action < length combined
  else exists action,
         sample_action self obs g = Ret (action, g1) /\
         first_maximum combined action.
Proof.
  intros Ha Hb Hlen Hpos combined draw g1.
  assert (Hc : 0 < length combined).
  { unfold combined. rewrite length_zip_with. lia. }
  unfold sample_action, dict_getitem. rewrite Ha, Hb. simpl.
  rewrite (np_add_same_length _ _ Hlen). simpl. fold combined.
  subst draw g1. destruct (random_uniform g) as [draw g1]. simpl.
  destruct (fleb draw (epsilon self)).
  - destruct (random_integers 0 (length combined) g1) as [action g2] eqn:Hr.
    exists action, g2. unfold np_random_randint.
    destruct (Nat.leb_spec (length combined) 0) as [Hle|_]; [lia|].
    rewrite Hr. repeat split; [].
    pose proof (Hrange 0 (length combined) g1 Hc) as Hin.
    rewrite Hr in Hin. simpl in Hin. lia.
  - destruct (np_argmax_first_maximum Htotal Htrans combined) as (i & Hi & Hmax).
    { intros Hnil. rewrite Hnil in Hc. simpl in Hc. lia. }
    exists i. rewrite Hi. done.
Qed.

End PolicyProperties.

Section DictProperties.
Context {State : Type} `{Countable State} {A : Type}.
Implicit Types (d : gmap State A) (k : State) (v : A).

Lemma setdefault_fst d k v : (dict_setdefault d k v).1 = default v (d !! k).
Proof. unfold dict_setdefault. by destruct (d !! k). Qed.

Lemma setdefault_lookup d k v :
  (dict_setdefault d k v).2 !! k = Some (dict_setdefault d k v).1.
Proof.
  unfold dict_setdefault. destruct (d !! k) eqn:Hk; simpl; [done|].
  apply lookup_insert_eq.
Qed.

Lemma setdefault_lookup_ne d k k' v :
  k <> k' -> (dict_setdefault d k v).2 !! k' = d !! k'.
Proof.
  intros Hne. unfold dict_setdefault. destruct (d !! k); simpl; [done|].
  by apply lookup_insert_ne.
Qed.

Lemma setdefault_present d k v w :
  d !! k = Some w -> dict_setdefault d k v = (w, d).
Proof. intros Hk. unfold dict_setdefault. by rewrite Hk. Qed.

Lemma setdefault_absent d k v :
  d !! k = None -> dict_setdefault d k v = (v, <[k:=v]> d).
Proof. intros Hk. unfold dict_setdefault. by rewrite Hk. Qed.

Lemma setdefault_keeps d k k' v w :
  d !! k' = Some w -> (dict_setdefault d k v).2 !! k' = Some w.
Proof.
  intros Hk. destruct (decide (k = k')) as [->|Hne].
  - by rewrite (setdefault_present _ _ _ _ Hk).
  - by rewrite setdefault_lookup_ne.
Qed.

Lemma dom_setdefault d k v : dom (dict_setdefault d k v).2 = {[k]} ∪ dom d.
Proof.
  unfold dict_setdefault. destruct (d !! k) eqn:Hk; simpl.
  - apply (elem_of_dom_2 d) in Hk. set_solver.
  - apply dom_insert_L.
Qed.

Lemma dict_getitem_Ret d k v : dict_getitem d k = Ret v <-> d !! k = Some v.
Proof. unfold dict_getitem. destruct (d !! k); split; congruence. Qed.

End DictProperties.

Section ArrayProperties.
Context {F : Type} `{Scalar F}.

Lemma arr_getitem_Ret (v : list F) (i : nat) (x : F) :
  arr_getitem v i = Ret x <-> v !! i = Some x.
Proof. unfold arr_getitem. destruct (v !! i); split; congruence. Qed.

Lemma arr_setitem_Ret (v v' : list F) (i : nat) (x : F) :
  arr_setitem v i x = Ret v' <-> i < length v /\ v' = <[i:=x]> v.
Proof.
  unfold arr_setitem. destruct (Nat.ltb_spec i (length v)); split.
  - intros [= <-]. done.
  - intros [_ ->]. done.
  - discriminate.
  - lia.
Qed.

End ArrayProperties.

Section UpdateProperties.
Context {State : Type} `{Countable State}.
Context {F : Type} `{Scalar F}.
Implicit Types (Qa Qb : gmap State (list F)) (state next_state : State).

Lemma update_a_Ret n gamma alpha Qa Qb state action next_state reward m Qa' Qb' :
  update_a n gamma alpha Qa Qb state action next_state reward = Ret (m, Qa', Qb')
  <-> td_update_spec n gamma alpha Qa Qb state action next_state reward m Qa' Qb'.
Proof.
  unfold update_a, td_update_spec.
  pose proof (setdefault_lookup Qa next_state (np_zeros n)) as Hla.
  pose proof (setdefault_lookup Qb next_state (np_zeros n)) as Hlb.
  destruct (dict_setdefault Qa next_state (np_zeros n)) as [va_next Qa1].
  destruct (dict_setdefault Qb next_state (np_zeros n)) as [vb_next Qb1].
  simpl in *. split.
  - intros Hu.
    inv_bind Hu. inv_bind Hu. inv_bind Hu. inv_bind Hu.
    inv_bind Hu. inv_bind Hu. inv_bind Hu. inv_bind Hu.
    repeat match goal with
    | Hd : dict_getitem _ _ = Ret _ |- _ => apply dict_getitem_Ret in Hd
    | Hd : arr_getitem _ _ = Ret _ |- _ => apply arr_getitem_Ret in Hd
    | Hd : arr_setitem _ _ _ = Ret _ |- _ => apply arr_setitem_Ret in Hd as [? ->]
    end.
    simplify_eq. eexists _, _, _, _, _. repeat split; eauto.
  - intros (vu & vo & row & old & boot & Hu & Ho & Hm & Hrow & Hold & Hboot & -> & ->).
    simplify_eq. rewrite Hm. simpl.
    apply dict_getitem_Ret in Hrow. rewrite Hrow. simpl.
    pose proof (lookup_lt_Some _ _ _ Hold) as Hlt.
    apply arr_getitem_Ret in Hold. rewrite Hold. simpl.
    apply arr_getitem_Ret in Hboot. rewrite Hboot. simpl.
    unfold arr_setitem. destruct (Nat.ltb_spec action (length row)); [|lia].
    done.
Qed.

(** Lines 99-101 are lines 95-97 with the two tables exchanged. *)
Lemma update_b_swap n gamma alpha Qa Qb state action next_state reward :
  update_b n gamma alpha Qa Qb state action next_state reward =
  '(m, Qb', Qa') ← update_a n gamma alpha Qb Qa state action next_state reward;
  Ret (m, Qa', Qb').
Proof.
  unfold update_a, update_b.
  destruct (dict_setdefault Qb next_state (np_zeros n)) as [vb_next Qb1].
  destruct (dict_setdefault Qa next_state (np_zeros n)) as [va_next Qa1].
  destruct (np_argmax vb_next) as [m| |]; simpl; [|done..].
  destruct (dict_getitem Qb1 state) as [row| |]; simpl; [|done..].
  destruct (arr_getitem row action) as [old| |]; simpl; [|done..].
  destruct (arr_getitem va_next m) as [boot| |]; simpl; [|done..].
  destruct (arr_setitem row action _); simpl; done.
Qed.

Lemma update_b_Ret n gamma alpha Qa Qb state action next_state reward m Qa' Qb' :
  update_b n gamma alpha Qa Qb state action next_state reward = Ret (m, Qa', Qb')
  <-> td_update_spec n gamma alpha Qb Qa state action next_state reward m Qb' Qa'.
Proof.
  rewrite update_b_swap, <- update_a_Ret.
  destruct (update_a n gamma alpha Qb Qa state action next_state reward)
    as [[[m' Qb''] Qa'']| |]; simpl; split; congruence.
Qed.

End UpdateProperties.

Section StepProperties.
Context {State : Type} `{Countable State}.
Context {F : Type} `{Scalar F}.
Context {G : Type} `{RandomSource F G}.
Context {E : Type} `{Environment State F E}.
Implicit Types (policy : EpsilonGreedyPolicy State F) (t : transition State F).

Lemma np_random_randint_Ret (lo hi : nat) (g : G) (r : nat * G) :
  np_random_randint lo hi g = Ret r <-> lo < hi /\ random_integers lo hi g = r.
Proof.
  unfold np_random_randint. destruct (Nat.leb_spec hi lo); split.
  - discriminate.
  - lia.
  - intros [= <-]. done.
  - intros [_ ->]. done.
Qed.

Lemma loop_body_Ret n gamma alpha policy env g state t policy' env' g' :
  loop_body n gamma alpha policy env g state = Ret (t, policy', env', g') <->
  exists g1,
    sample_action policy state g = Ret (tr_action t, g1) /\
    step env (tr_action t) = (tr_next_state t, tr_reward t, tr_done t, env') /\
    random_integers 0 2 g1 = (tr_coin t, g') /\
    tr_state t = state /\
    tr_Q_a t = Q_a policy' /\ tr_Q_b t = Q_b policy' /\
    epsilon policy' = epsilon policy /\
    (if Nat.eqb (tr_coin t) 0
     then update_b n gamma alpha (Q_a policy) (Q_b policy) state (tr_action t)
            (tr_next_state t) (tr_reward t)
     else update_a n gamma alpha (Q_a policy) (Q_b policy) state (tr_action t)
            (tr_next_state t) (tr_reward t))
    = Ret (tr_max_action t, Q_a policy', Q_b policy').
Proof.
  unfold loop_body. split.
  - intros Hl. inv_bind Hl. destruct x as [action g1].
    destruct (step env action) as [[[next_state reward] done] env1] eqn:Hstep.
    inv_bind Hl. destruct x as [coin g2].
    apply np_random_randint_Ret in Hx0 as [_ Hcoin].
    inv_bind Hl. destruct x as [[max_action Qa'] Qb'].
    injection Hl as <- <- <- <-. simpl. exists g1. by rewrite Hstep.
  - intros (g1 & Hs & Hstep & Hcoin & <- & Ha & Hb & Heps & Hu).
    assert (Hr : np_random_randint 0 2 g1 = Ret (tr_coin t, g')).
    { apply np_random_randint_Ret. split; [lia|done]. }
    rewrite Hs, bind_Ret_l, Hstep, Hr, bind_Ret_l, Hu, bind_Ret_l.
    destruct t, policy'; simpl in *. by subst.
Qed.

End StepProperties.

Section MergeProperties.
Context {State : Type} `{Countable State}.
Context {F : Type} `{Scalar F}.
Implicit Types (Qa Qb Q : gmap State (list F)).

Lemma np_add_outcome (x y : list F) :
  returns (np_add x y) \/ np_add x y = Raise ValueError.
Proof.
  unfold np_add, returns. destruct (Nat.eqb (length x) (length y)); [eauto|].
  destruct x as [|a [|a' x]], y as [|b [|b' y]]; eauto.
Qed.

Lemma np_add_lookup (x y v : list F) (i : nat) (a b : F) :
  np_add x y = Ret v -> x !! i = Some a -> y !! i = Some b ->
  v !! i = Some (fadd a b).
Proof.
  unfold np_add. destruct (Nat.eqb_spec (length x) (length y)) as [Hl|Hl].
  - intros [= <-] Ha Hb. rewrite lookup_zip_with, Ha. simpl. by rewrite Hb.
  - destruct x as [|a0 [|a1 x]], y as [|b0 [|b1 y]]; simpl in *;
      try discriminate; try lia; intros [= <-] Ha Hb;
      destruct i as [|i]; simpl in *; try discriminate; simplify_eq; try done.
Qed.

Lemma merge_tables_outcome Qa Qb : merge_outcome_spec Qb (merge_tables Qa Qb) Qa.
Proof.
  unfold merge_tables.
  apply (map_fold_weak_ind (merge_outcome_spec Qb)).
  - simpl. split; [by rewrite !dom_empty_L|]. intros k va Hk.
    by rewrite lookup_empty in Hk.
  - intros i x m r Hi Hr. unfold merge_step.
    destruct r as [Q|e|]; simpl in *; [|idtac|done].
    + destruct Hr as [Hdom HQ]. unfold dict_getitem.
      destruct (Qb !! i) as [vb|] eqn:Hb; simpl.
      * destruct (np_add_outcome x vb) as [[v Hv]|Hv]; rewrite Hv; simpl.
        -- split; [by rewrite !dom_insert_L, Hdom|].
           intros k va Hk. destruct (decide (i = k)) as [->|Hne].
           ++ rewrite lookup_insert_eq in Hk. injection Hk as <-.
              exists vb, v. by rewrite lookup_insert_eq.
           ++ rewrite lookup_insert_ne in Hk by done.
              destruct (HQ k va Hk) as (vb' & v' & ? & ? & ?).
              exists vb', v'. by rewrite lookup_insert_ne.
        -- right. split; [done|]. exists i, x, vb. by rewrite lookup_insert_eq.
      * left. split; [done|]. exists i. by rewrite lookup_insert_eq.
    + assert (Hfresh : forall k, is_Some (m !! k) -> i <> k).
      { intros k [w Hk] ->. congruence. }
      destruct Hr as [[-> (k & Hk & Hb)]|[-> (k & va & vb & Hk & Hb & Hv)]].
      * left. split; [done|]. exists k. rewrite lookup_insert_ne; auto.
      * right. split; [done|]. exists k, va, vb.
        rewrite lookup_insert_ne; eauto.
Qed.

Lemma merge_tables_Ret Qa Qb Q :
  merge_tables Qa Qb = Ret Q ->
  dom Q = dom Qa /\
  forall k va, Qa !! k = Some va ->
    exists vb v, Qb !! k = Some vb /\ np_add va vb = Ret v /\ Q !! k = Some v.
Proof.
  intros Hm. pose proof (merge_tables_outcome Qa Qb) as Hs.
  by rewrite Hm in Hs.
Qed.

Lemma merge_tables_returns Qa Qb :
  (forall k va, Qa !! k = Some va ->
     exists vb, Qb !! k = Some vb /\ returns (np_add va vb)) ->
  returns (merge_tables Qa Qb).
Proof.
  intros Hall. pose proof (merge_tables_outcome Qa Qb) as Hs.
  destruct (merge_tables Qa Qb) as [Q|e|]; simpl in Hs; [by exists Q| |done].
  destruct Hs as [[_ (k & [va Hk] & Hb)]|[_ (k & va & vb & Hk & Hb & Hv)]].
  - destruct (Hall k va Hk) as (vb & Hb' & _). congruence.
  - destruct (Hall k va Hk) as (vb' & Hb' & [v Hv']). congruence.
Qed.

End MergeProperties.

Section LearnerProperties.
Context {State : Type} `{Countable State}.
Context {F : Type} `{Scalar F}.
Context {G : Type} `{RandomSource F G}.
Context {E : Type} `{Environment State F E}.
Implicit Types (policy p : EpsilonGreedyPolicy State F) (t : transition State F).
Implicit Types (st : episode_state State F G E) (ls : learner_state State F G E).
Implicit Types (Qa Qb Qu Qo : gmap State (list F)).

Lemma td_update_spec_dom n gamma alpha Qu Qo state action next_state reward m Qu' Qo' :
  td_update_spec n gamma alpha Qu Qo state action next_state reward m Qu' Qo' ->
  dom Qu' = {[next_state]} ∪ dom Qu /\ dom Qo' = {[next_state]} ∪ dom Qo.
Proof.
  intros (vu & vo & row & old & boot & _ & _ & _ & Hrow & _ & _ & -> & ->).
  rewrite dom_insert_L, !dom_setdefault. split; [|done].
  apply elem_of_dom_2 in Hrow. rewrite dom_setdefault in Hrow. set_solver.
Qed.

Lemma loop_body_dom n gamma alpha policy (env : E) (g : G) state t policy' env' g' :
  loop_body n gamma alpha policy env g state = Ret (t, policy', env', g') ->
  dom (Q_a policy') = {[tr_next_state t]} ∪ dom (Q_a policy) /\
  dom (Q_b policy') = {[tr_next_state t]} ∪ dom (Q_b policy).
Proof.
  intros Hl. apply loop_body_Ret in Hl as (g1 & _ & _ & _ & _ & _ & _ & _ & Hu).
  destruct (Nat.eqb (tr_coin t) 0).
  - apply update_b_Ret, td_update_spec_dom in Hu. tauto.
  - apply update_a_Ret, td_update_spec_dom in Hu. tauto.
Qed.

Lemma episode_start_dom n policy (env : E) (g : G) :
  dom (Q_a (ep_policy (episode_start n policy env g)))
    = {[(reset env).1]} ∪ dom (Q_a policy) /\
  dom (Q_b (ep_policy (episode_start n policy env g)))
    = {[(reset env).1]} ∪ dom (Q_b policy).
Proof.
  unfold episode_start. destruct (reset env) as [state env1]. simpl.
  by rewrite !dom_insert_L.
Qed.

Lemma reachable_synced n gamma alpha p0 p :
  synced p0 -> reachable (G:=G) (E:=E) n gamma alpha p0 p -> synced p.
Proof.
  unfold synced. intros Hsync0 Hr. induction Hr as [|p env g _ IH|p env g state t p' env' g' _ IH Hl].
  - done.
  - destruct (episode_start_dom n p env g) as [-> ->]. by rewrite IH.
  - destruct (loop_body_dom _ _ _ _ _ _ _ _ _ _ _ Hl) as [-> ->]. by rewrite IH.
Qed.

Lemma sample_action_dom policy state (g : G) r :
  sample_action policy state g = Ret r ->
  state ∈ dom (Q_a policy) /\ state ∈ dom (Q_b policy).
Proof.
  unfold sample_action. intros Hs.
  inv_bind Hs as va Ha. inv_bind Hs as vb Hb.
  apply dict_getitem_Ret in Ha, Hb. split; by eapply elem_of_dom_2.
Qed.

Lemma loop_body_synced n gamma alpha policy (env : E) (g : G) state t policy' env' g' :
  loop_body n gamma alpha policy env g state = Ret (t, policy', env', g') ->
  synced policy -> synced policy'.
Proof.
  intros Hl. unfold synced. intros Hsync.
  destruct (loop_body_dom _ _ _ _ _ _ _ _ _ _ _ Hl) as [-> ->].
  by rewrite Hsync.
Qed.

Lemma fold_left_fadd_cons (r : F) (rs : list F) (acc : F) :
  fold_left fadd (r :: rs) acc = fold_left fadd rs (fadd acc r).
Proof. reflexivity. Qed.

(** The [while True] loop, when it ends, has appended a finished episode to
    the trace and counted and summed its passes. *)
Lemma while_loop_Ret fuel n gamma alpha st st' :
  while_loop fuel n gamma alpha st = Ret st' ->
  exists ts,
    ep_trace st' = ep_trace st ++ ts /\
    ep_i st' = ep_i st + length ts /\
    ep_R st' = fold_left fadd (tr_reward <$> ts) (ep_R st) /\
    complete_episode ts /\
    Forall (observed_pass (G:=G) (E:=E) n gamma alpha) ts /\
    Forall (fun t => synced (ep_policy st) -> dom (tr_Q_a t) = dom (tr_Q_b t)) ts /\
    (forall p0, reachable n gamma alpha p0 (ep_policy st) ->
                reachable (G:=G) (E:=E) n gamma alpha p0 (ep_policy st')).
Proof.
  revert st. induction fuel as [|fuel IH]; intros st Hw; [discriminate|].
  simpl in Hw. inv_bind Hw as [[[t policy'] env'] g'] Hl.
  assert (Hobs : observed_pass (G:=G) (E:=E) n gamma alpha t).
  { pose proof Hl as Hl'. apply loop_body_Ret in Hl' as (_ & _ & _ & _ & Hst & _).
    rewrite <- Hst in Hl. by eexists _, _, _, _, _, _. }
  pose proof (loop_body_synced _ _ _ _ _ _ _ _ _ _ _ Hl) as Hsync.
  assert (Hsnap : synced (ep_policy st) -> dom (tr_Q_a t) = dom (tr_Q_b t)).
  { pose proof Hl as Hl'.
    apply loop_body_Ret in Hl' as (_ & _ & _ & _ & _ & -> & -> & _). exact Hsync. }
  destruct (tr_done t) eqn:Hdone.
  - injection Hw as <-. simpl. exists [t]. repeat split; try done.
    + exists [], t. by repeat split.
    + by constructor.
    + by constructor.
    + intros p0 Hp0. by eapply reach_loop_body.
  - apply IH in Hw as (ts & Htr & Hi & HR & (init & last & -> & Hlast & Hinit) & Hall & Hsy & Hreach).
    simpl in *. exists (t :: init ++ [last]). repeat split.
    + by rewrite Htr, <- app_assoc.
    + rewrite Hi. simpl. lia.
    + by rewrite HR.
    + exists (t :: init), last. repeat split; [done|]. by constructor.
    + by constructor.
    + constructor; [done|].
      eapply Forall_impl; [exact Hsy|]. simpl. intros t' Ht' Hs0. auto.
    + intros p0 Hp0. apply Hreach. by eapply reach_loop_body.
Qed.

Lemma episode_start_fields n policy (env : E) (g : G) :
  let st := episode_start n policy env g in
  ep_i st = 0 /\ ep_R st = fzero /\ ep_trace st = [] /\
  ep_state st = (reset env).1 /\ ep_env st = (reset env).2 /\ ep_rng st = g /\
  Q_a (ep_policy st) = <[(reset env).1 := np_zeros n]> (Q_a policy) /\
  Q_b (ep_policy st) = <[(reset env).1 := np_zeros n]> (Q_b policy) /\
  epsilon (ep_policy st) = epsilon policy.
Proof. unfold episode_start. by destruct (reset env). Qed.

(** The [for] loop, when it ends, has run [count] finished episodes and
    appended one statistics entry per episode: the number of its passes and
    the sum of its rewards. *)
Lemma episodes_Ret fuel count n gamma alpha ls ls' :
  episodes fuel count n gamma alpha ls = Ret ls' ->
  exists eps,
    length eps = count /\
    ls_episodes ls' = ls_episodes ls ++ eps /\
    ls_stats ls' = ls_stats ls ++ ((fun ep => (length ep, episode_return ep)) <$> eps) /\
    Forall complete_episode eps /\
    Forall (Forall (observed_pass (G:=G) (E:=E) n gamma alpha)) eps /\
    (synced (ls_policy ls) ->
     Forall (Forall (fun t => dom (tr_Q_a t) = dom (tr_Q_b t))) eps) /\
    (forall p0, reachable n gamma alpha p0 (ls_policy ls) ->
                reachable (G:=G) (E:=E) n gamma alpha p0 (ls_policy ls')).
Proof.
  revert ls. induction count as [|count IH]; intros ls He; simpl in He.
  - injection He as <-. exists []. rewrite !app_nil_r. repeat split; auto.
  - inv_bind He as st Hw.
    apply while_loop_Ret in Hw as (ts & Htr & Hi & HR & Hc & Hobs & Hsy & Hreach).
    destruct (episode_start_fields n (ls_policy ls) (ls_env ls) (ls_rng ls))
      as (Hi0 & HR0 & Htr0 & _).
    rewrite Htr0 in Htr. rewrite Hi0 in Hi. rewrite HR0 in HR. simpl in Htr, Hi.
    apply IH in He as (eps & Hlen & Heps & Hstats & Hcs & Hobss & Hsys & Hreachs).
    simpl in *. exists (ts :: eps). repeat split.
    + simpl. by rewrite Hlen.
    + by rewrite Heps, Htr, <- app_assoc.
    + rewrite Hstats, Hi, HR, <- app_assoc. done.
    + by constructor.
    + by constructor.
    + intros Hs0.
      assert (Hs1 : synced (ep_policy (episode_start n (ls_policy ls) (ls_env ls) (ls_rng ls)))).
      { apply (reachable_synced n gamma alpha (ls_policy ls)); [done|].
        apply reach_episode_start, reach_initial. }
      constructor.
      * eapply Forall_impl; [exact Hsy|]. simpl. auto.
      * apply Hsys. apply (reachable_synced n gamma alpha (ls_policy ls)); [done|].
        apply Hreach, reach_episode_start, reach_initial.
    + intros p0 Hp0. by apply Hreachs, Hreach, reach_episode_start.
Qed.

Lemma get_num_actions_Ret (env : E) (n : nat) :
  get_num_actions (State:=State) (F:=F) env = Ret n <->
  action_space_n (State:=State) (F:=F) env = Some n \/
  (action_space_n (State:=State) (F:=F) env = None /\
   nA (State:=State) (F:=F) env = Some n).
Proof.
  unfold get_num_actions.
  destruct (action_space_n env) as [m|]; [|destruct (nA env) as [m|]]; split.
  - intros [= <-]. by left.
  - intros [[= <-]|[[=] _]]. done.
  - intros [= <-]. by right.
  - intros [[=]|[_ [= <-]]]. done.
  - discriminate.
  - intros [[=]|[_ [=]]].
Qed.

Lemma unzip_stats_Ret (stats : list (nat * F)) lens rets :
  unzip_stats stats = Ret (lens, rets) <->
  stats <> [] /\ lens = stats.*1 /\ rets = stats.*2.
Proof.
  unfold unzip_stats. destruct stats as [|s stats]; split.
  - discriminate.
  - intros [? _]. done.
  - intros [= <- <-]. done.
  - intros (_ & -> & ->). done.
Qed.

Lemma double_q_learning_Ret fuel (env : E) policy num_episodes Qa_arg Qb_arg
    gamma alpha show (g : G) res :
  double_q_learning fuel env policy num_episodes Qa_arg Qb_arg gamma alpha show g
    = Ret res ->
  exists n ls,
    get_num_actions (State:=State) (F:=F) env = Ret n /\
    episodes fuel (Z.to_nat num_episodes) n gamma alpha
      {| ls_stats := []; ls_policy := install_tables policy Qa_arg Qb_arg;
         ls_env := env; ls_rng := g; ls_episodes := [] |} = Ret ls /\
    ls_stats ls <> [] /\
    res_episode_lengths res = (ls_stats ls).*1 /\
    res_episode_returns res = (ls_stats ls).*2 /\
    merge_tables (Q_a (ls_policy ls)) (Q_b (ls_policy ls)) = Ret (res_Q res) /\
    res_policy res = ls_policy ls /\ res_env res = ls_env ls /\
    res_rng res = ls_rng ls /\ res_episodes res = ls_episodes ls.
Proof.
  unfold double_q_learning. intros Hd.
  inv_bind Hd as n Hn. inv_bind Hd as ls He. inv_bind Hd as [lens rets] Hz.
  inv_bind Hd as Q Hm. injection Hd as <-. simpl.
  apply unzip_stats_Ret in Hz as (Hne & -> & ->).
  exists n, ls. repeat split; try done.
  unfold episode_range in He. by destruct show.
Qed.

Lemma well_shaped_insert n Qa k (v : list F) :
  well_shaped n Qa -> length v = n -> well_shaped n (<[k:=v]> Qa).
Proof.
  intros Hw Hv s w Hs. destruct (decide (k = s)) as [->|Hne].
  - rewrite lookup_insert_eq in Hs. by injection Hs as <-.
  - rewrite lookup_insert_ne in Hs by done. eauto.
Qed.

Lemma well_shaped_setdefault n Qa k :
  well_shaped n Qa -> well_shaped n (dict_setdefault Qa k (np_zeros n)).2.
Proof.
  intros Hw. unfold dict_setdefault. destruct (Qa !! k); simpl; [done|].
  apply well_shaped_insert; [done|]. apply length_np_zeros.
Qed.

Lemma td_update_spec_shaped n gamma alpha Qu Qo state action next_state reward m Qu' Qo' :
  td_update_spec n gamma alpha Qu Qo state action next_state reward m Qu' Qo' ->
  well_shaped n Qu -> well_shaped n Qo ->
  well_shaped n Qu' /\ well_shaped n Qo'.
Proof.
  intros (vu & vo & row & old & boot & _ & _ & _ & Hrow & _ & _ & -> & ->) Hu Ho.
  split; [|by apply well_shaped_setdefault].
  apply well_shaped_insert; [by apply well_shaped_setdefault|].
  rewrite length_insert. by eapply (well_shaped_setdefault n Qu next_state).
Qed.

Lemma loop_body_shaped n gamma alpha policy (env : E) (g : G) state t policy' env' g' :
  loop_body n gamma alpha policy env g state = Ret (t, policy', env', g') ->
  shaped n policy -> shaped n policy'.
Proof.
  intros Hl [Ha Hb]. apply loop_body_Ret in Hl as (g1 & _ & _ & _ & _ & _ & _ & _ & Hu).
  unfold shaped. destruct (Nat.eqb (tr_coin t) 0).
  - apply update_b_Ret in Hu.
    destruct (td_update_spec_shaped _ _ _ _ _ _ _ _ _ _ _ _ Hu Hb Ha). done.
  - apply update_a_Ret in Hu.
    destruct (td_update_spec_shaped _ _ _ _ _ _ _ _ _ _ _ _ Hu Ha Hb). done.
Qed.

Lemma episode_start_shaped n policy (env : E) (g : G) :
  shaped n policy -> shaped n (ep_policy (episode_start n policy env g)).
Proof.
  intros [Ha Hb].
  destruct (episode_start_fields n policy env g) as (_ & _ & _ & _ & _ & _ & Hqa & Hqb & _).
  unfold shaped. rewrite Hqa, Hqb.
  split; apply well_shaped_insert; auto using length_np_zeros.
Qed.

Lemma reachable_shaped n gamma alpha p0 p :
  shaped n p0 -> reachable (G:=G) (E:=E) n gamma alpha p0 p -> shaped n p.
Proof.
  intros Hs0 Hr. induction Hr as [|p env g _ IH|p env g state t p' env' g' _ IH Hl].
  - done.
  - by apply episode_start_shaped.
  - by eapply loop_body_shaped.
Qed.


(** C3. Starting from tables with the same key set (the empty tables, for
    one), the two tables have the same key set after any number of episode
    starts and completed passes of the loop body; so they do after every
    recorded pass of a call of [double_q_learning] and when its merge step
    runs. *)
Theorem key_synchronization n gamma alpha (p0 : EpsilonGreedyPolicy State F) :
  synced p0 ->
  (forall p, reachable (G:=G) (E:=E) n gamma alpha p0 p -> synced p) /\
  (forall fuel (env : E) policy num_episodes Qa_arg Qb_arg show (g : G) res,
     install_tables policy Qa_arg Qb_arg = p0 ->
     double_q_learning fuel env policy num_episodes Qa_arg Qb_arg gamma alpha show g
       = Ret res ->
     dom (Q_a (res_policy res)) = dom (Q_b (res_policy res)) /\
     Forall (Forall (fun t => dom (tr_Q_a t) = dom (tr_Q_b t))) (res_episodes res)).
Proof.
  intros Hs0. split.
  - intros p Hp. by eapply reachable_synced.
  - intros fuel env policy ne Qa_arg Qb_arg show g res Hp0 Hd.
    apply double_q_learning_Ret in Hd
      as (n' & ls & _ & He & _ & _ & _ & _ & -> & _ & _ & ->).
    apply episodes_Ret in He as (eps & _ & Heps & _ & _ & _ & Hsy & Hreach).
    simpl in *. rewrite Hp0 in Hsy, Hreach. split.
    + apply (reachable_synced n' gamma alpha p0); [done|]. apply Hreach, reach_initial.
    + rewrite Heps. by apply Hsy.
Qed.

(** *** Fuel: more of it never changes a finished run *)

Lemma while_loop_mono fuel fuel' n gamma alpha st :
  fuel <= fuel' ->
  while_loop fuel n gamma alpha st <> OutOfFuel ->
  while_loop fuel' n gamma alpha st = while_loop fuel n gamma alpha st.
Proof.
  revert fuel' st. induction fuel as [|fuel IH]; intros fuel' st Hle Hne; [done|].
  destruct fuel' as [|fuel']; [lia|]. simpl in *.
  destruct (loop_body n gamma alpha (ep_policy st) (ep_env st) (ep_rng st) (ep_state st))
    as [[[[t policy'] env'] g']| |]; simpl in *; [|done..].
  destruct (tr_done t); [done|]. apply IH; [lia|done].
Qed.

Lemma episodes_mono fuel fuel' count n gamma alpha ls :
  fuel <= fuel' ->
  episodes fuel count n gamma alpha ls <> OutOfFuel ->
  episodes fuel' count n gamma alpha ls = episodes fuel count n gamma alpha ls.
Proof.
  revert ls. induction count as [|count IH]; intros ls Hle Hne; [done|].
  simpl in *.
  assert (Hw : while_loop fuel n gamma alpha
                 (episode_start n (ls_policy ls) (ls_env ls) (ls_rng ls)) <> OutOfFuel).
  { intros Hw. by rewrite Hw in Hne. }
  rewrite (while_loop_mono fuel fuel') by done.
  destruct (while_loop fuel n gamma alpha _) as [st| |]; simpl in *; [|done..].
  by apply IH.
Qed.

Lemma double_q_learning_mono fuel fuel' (env : E) policy num_episodes Qa_arg Qb_arg
    gamma alpha show show' (g : G) :
  fuel <= fuel' ->
  double_q_learning fuel env policy num_episodes Qa_arg Qb_arg gamma alpha show g
    <> OutOfFuel ->
  double_q_learning fuel' env policy num_episodes Qa_arg Qb_arg gamma alpha show' g
  = double_q_learning fuel env policy num_episodes Qa_arg Qb_arg gamma alpha show g.
Proof.
  intros Hle Hne. unfold double_q_learning in *.
  destruct (get_num_actions env) as [n| |]; simpl in *; [|done..].
  replace (episode_range show' num_episodes) with (episode_range show num_episodes)
    by by destruct show, show'.
  match goal with
  | |- context [episodes fuel' ?c n gamma alpha ?ls] =>
      assert (He : episodes fuel c n gamma alpha ls <> OutOfFuel)
        by (intros He; by rewrite He in Hne);
      by rewrite (episodes_mono fuel fuel')
  end.
Qed.

(** *** Well-formed runs finish *)

Lemma sample_action_returns n policy state (g : G) :
  randint_in_range (F:=F) (G:=G) -> 0 < n -> shaped n policy ->
  is_Some (Q_a policy !! state) -> is_Some (Q_b policy !! state) ->
  exists action g1, sample_action policy state g = Ret (action, g1) /\ action < n.
Proof.
  intros Hrange Hn [Hsa Hsb] [va Ha] [vb Hb].
  pose proof (Hsa _ _ Ha) as Hla. pose proof (Hsb _ _ Hb) as Hlb.
  unfold sample_action, dict_getitem. rewrite Ha, Hb. simpl.
  rewrite np_add_same_length by congruence. simpl.
  assert (Hlen : length (zip_with fadd va vb) = n).
  { rewrite length_zip_with. lia. }
  destruct (random_uniform g) as [draw g1].
  destruct (fleb draw (epsilon policy)).
  - unfold np_random_randint. rewrite Hlen.
    destruct (Nat.leb_spec n 0); [lia|].
    pose proof (Hrange 0 n g1 Hn) as Hin.
    destruct (random_integers 0 n g1) as [action g2]. simpl in Hin.
    exists action, g2. split; [done|lia].
  - destruct (np_argmax_returns (zip_with fadd va vb)) as (i & Hi & Hlt); [lia|].
    rewrite Hi. simpl. exists i, g1. split; [done|lia].
Qed.

Lemma update_a_returns n gamma alpha Qa Qb state action next_state reward :
  0 < n -> well_shaped n Qa -> well_shaped n Qb ->
  is_Some (Qa !! state) -> action < n ->
  returns (update_a n gamma alpha Qa Qb state action next_state reward).
Proof.
  intros Hn Hsa Hsb [row0 Hrow0] Hact.
  pose proof (well_shaped_setdefault n Qa next_state Hsa) as Hsa1.
  pose proof (well_shaped_setdefault n Qb next_state Hsb) as Hsb1.
  pose proof (setdefault_lookup Qa next_state (np_zeros n)) as Hva.
  pose proof (setdefault_lookup Qb next_state (np_zeros n)) as Hvb.
  pose proof (setdefault_keeps Qa next_state state (np_zeros n) row0 Hrow0) as Hrow.
  destruct (np_argmax_returns (dict_setdefault Qa next_state (np_zeros n)).1)
    as (m & Hm & Hmlt).
  { rewrite (Hsa1 _ _ Hva). done. }
  rewrite (Hsa1 _ _ Hva) in Hmlt.
  destruct (lookup_lt_is_Some_2 row0 action) as [old Hold].
  { by rewrite (Hsa1 _ _ Hrow). }
  destruct (lookup_lt_is_Some_2 (dict_setdefault Qb next_state (np_zeros n)).1 m)
    as [boot Hboot].
  { by rewrite (Hsb1 _ _ Hvb). }
  eexists (m, _, _). apply update_a_Ret.
  eexists _, _, row0, old, boot. repeat split; eauto.
Qed.

Lemma loop_body_returns n gamma alpha policy (env : E) (g : G) state :
  randint_in_range (F:=F) (G:=G) -> 0 < n -> shaped n policy ->
  is_Some (Q_a policy !! state) -> is_Some (Q_b policy !! state) ->
  exists t policy' env' g',
    loop_body n gamma alpha policy env g state = Ret (t, policy', env', g') /\
    tr_action t < n.
Proof.
  intros Hrange Hn Hsh Ha Hb.
  destruct (sample_action_returns n policy state g Hrange Hn Hsh Ha Hb)
    as (action & g1 & Hs & Hact).
  unfold loop_body. rewrite Hs, bind_Ret_l.
  destruct (step env action) as [[[next_state reward] done] env1].
  unfold np_random_randint. simpl Nat.leb. cbv iota. rewrite bind_Ret_l.
  destruct (random_integers 0 2 g1) as [coin g2].
  destruct Hsh as [Hsa Hsb].
  destruct (Nat.eqb coin 0).
  - rewrite update_b_swap.
    destruct (update_a_returns n gamma alpha (Q_b policy) (Q_a policy) state
                action next_state reward Hn Hsb Hsa Hb Hact) as [[[m Qb'] Qa'] ->].
    rewrite !bind_Ret_l. by eexists _, _, _, _.
  - destruct (update_a_returns n gamma alpha (Q_a policy) (Q_b policy) state
                action next_state reward Hn Hsa Hsb Ha Hact) as [[[m Qa'] Qb'] ->].
    rewrite !bind_Ret_l. by eexists _, _, _, _.
Qed.

Lemma while_loop_returns n gamma alpha (env : E) :
  randint_in_range (F:=F) (G:=G) -> 0 < n ->
  halts (State:=State) (F:=F) n env ->
  forall st, ep_env st = env -> shaped n (ep_policy st) ->
    is_Some (Q_a (ep_policy st) !! ep_state st) ->
    is_Some (Q_b (ep_policy st) !! ep_state st) ->
    exists fuel st', while_loop fuel n gamma alpha st = Ret st'.
Proof.
  intros Hrange Hn Hhalt.
  induction Hhalt as [env _ IH]. intros st Henv Hsh Ha Hb.
  destruct (loop_body_returns n gamma alpha (ep_policy st) (ep_env st) (ep_rng st)
              (ep_state st) Hrange Hn Hsh Ha Hb)
    as (t & policy' & env' & g' & Hl & Hact).
  destruct (tr_done t) eqn:Hdone.
  - exists 1. eexists. simpl. rewrite Hl, bind_Ret_l, Hdone. done.
  - pose proof Hl as Hl'.
    apply loop_body_Ret in Hl' as (g1 & _ & Hstep & _).
    rewrite Henv in Hstep.
    pose proof (loop_body_dom _ _ _ _ _ _ _ _ _ _ _ Hl) as [Hda Hdb].
    edestruct (IH (tr_action t) Hact) as (fuel & st' & Hw).
    + by rewrite Hstep.
    + instantiate (1 := {| ep_i := ep_i st + 1;
                           ep_R := fadd (ep_R st) (tr_reward t);
                           ep_state := tr_next_state t;
                           ep_policy := policy'; ep_env := env'; ep_rng := g';
                           ep_trace := ep_trace st ++ [t] |}).
      simpl. by rewrite Hstep.
    + simpl. by eapply loop_body_shaped.
    + simpl. apply elem_of_dom. rewrite Hda. set_solver.
    + simpl. apply elem_of_dom. rewrite Hdb. set_solver.
    + exists (S fuel), st'. simpl. rewrite Hl, bind_Ret_l, Hdone. exact Hw.
Qed.

Lemma episodes_returns n gamma alpha count :
  randint_in_range (F:=F) (G:=G) -> 0 < n ->
  terminating (State:=State) (F:=F) (E:=E) n ->
  forall ls, shaped n (ls_policy ls) ->
    exists fuel ls', episodes fuel count n gamma alpha ls = Ret ls'.
Proof.
  intros Hrange Hn Hterm. induction count as [|count IH]; intros ls Hsh.
  - exists 0, ls. done.
  - pose proof (episode_start_fields n (ls_policy ls) (ls_env ls) (ls_rng ls))
      as (_ & _ & _ & Hst & Henv & _ & Hqa & Hqb & _).
    destruct (while_loop_returns n gamma alpha _ Hrange Hn (Hterm (ls_env ls))
                (episode_start n (ls_policy ls) (ls_env ls) (ls_rng ls)))
      as (fuel1 & st' & Hw).
    + done.
    + by apply episode_start_shaped.
    + rewrite Hqa, Hst, lookup_insert_eq. eauto.
    + rewrite Hqb, Hst, lookup_insert_eq. eauto.
    + pose proof Hw as Hw'.
      apply while_loop_Ret in Hw' as (_ & _ & _ & _ & _ & _ & _ & Hreach).
      edestruct (IH {| ls_stats := ls_stats ls ++ [(ep_i st', ep_R st')];
                       ls_policy := ep_policy st'; ls_env := ep_env st';
                       ls_rng := ep_rng st';
                       ls_episodes := ls_episodes ls ++ [ep_trace st'] |})
        as (fuel2 & ls' & He).
      * simpl. eapply reachable_shaped; [|apply Hreach, reach_initial].
        by apply episode_start_shaped.
      * exists (Nat.max fuel1 fuel2), ls'. simpl.
        rewrite (while_loop_mono fuel1) by (lia || by rewrite Hw).
        rewrite Hw, bind_Ret_l.
        rewrite (episodes_mono fuel2) by (lia || by rewrite He). done.
Qed.

Lemma stats_lengths (eps : list (list (transition State F))) :
  ((fun ep => (length ep, episode_return ep)) <$> eps).*1 = length <$> eps.
Proof. induction eps as [|ep eps IH]; [done|]. cbn. f_equal. exact IH. Qed.

Lemma stats_returns (eps : list (list (transition State F))) :
  ((fun ep => (length ep, episode_return ep)) <$> eps).*2 = episode_return <$> eps.
Proof. induction eps as [|ep eps IH]; [done|]. cbn. f_equal. exact IH. Qed.

(** C10. Called with [num_episodes = 0], [double_q_learning] does not
    return: the body of the episode loop never runs, [stats] stays empty and
    unpacking [zip( *stats)] raises [ValueError] (once the number of actions
    has been read from the environment). *)
Theorem zero_episodes_raises fuel (env : E) policy Qa_arg Qb_arg gamma alpha show (g : G) :
  ~ returns (double_q_learning fuel env policy 0 Qa_arg Qb_arg gamma alpha show g) /\
  (forall n, get_num_actions (State:=State) (F:=F) env = Ret n ->
     double_q_learning fuel env policy 0 Qa_arg Qb_arg gamma alpha show g
       = Raise ValueError).
Proof.
  assert (Heq : double_q_learning fuel env policy 0 Qa_arg Qb_arg gamma alpha show g
                = (get_num_actions (State:=State) (F:=F) env ≫= fun _ => Raise ValueError)).
  { unfold double_q_learning.
    destruct (get_num_actions env) as [n| |]; simpl; [|done..].
    by destruct show. }
  split.
  - intros [res Hres]. rewrite Heq in Hres.
    by destruct (get_num_actions env).
  - intros n Hn. by rewrite Heq, Hn.
Qed.

End LearnerProperties.

(** * The update rule, the episodes and the merge *)

Section PassProperties.
Context {State : Type} `{Countable State}.
Context {F : Type} `{Scalar F}.
Context {G : Type} `{RandomSource F G}.
Context {E : Type} `{Environment State F E}.
Implicit Types (policy p : EpsilonGreedyPolicy State F) (t : transition State F).
Implicit Types (Qa Qb Qu Qo : gmap State (list F)).

Lemma td_update_spec_cell n gamma alpha Qu Qo state action next_state reward m Qu' Qo' :
  td_update_spec n gamma alpha Qu Qo state action next_state reward m Qu' Qo' ->
  is_Some (Qu !! state) ->
  td_cell_update n gamma alpha Qu Qo state action next_state reward m Qu'.
Proof.
  intros (vu & vo & row & old & boot & Hvu & Hvo & Hm & Hrow & Hold & Hboot & -> & _) [w Hw].
  rewrite setdefault_lookup, setdefault_fst in Hvu, Hvo.
  injection Hvu as <-. injection Hvo as <-.
  rewrite (setdefault_keeps _ _ _ _ _ Hw) in Hrow. injection Hrow as <-.
  pose proof (lookup_lt_Some _ _ _ Hold) as Hlt.
  split; [done|].
  exists w, (<[action := td_value gamma alpha reward old boot]> w), old, boot.
  split; [done|]. split; [done|]. split; [done|].
  split; [apply lookup_insert_eq|].
  split; [by apply list_lookup_insert_eq|].
  split; [apply length_insert|].
  intros j Hj. by apply list_lookup_insert_ne.
Qed.

(** A pass that completes went through the steps of the source in their
    order: the action is sampled, the environment is stepped, the coin is
    drawn, and the branch that the coin selects updates its table. *)
Lemma loop_body_pass n gamma alpha policy (env : E) (g : G) state t policy' env' g' :
  loop_body n gamma alpha policy env g state = Ret (t, policy', env', g') ->
  exists g1,
    sample_action policy state g = Ret (tr_action t, g1) /\
    step env (tr_action t) = (tr_next_state t, tr_reward t, tr_done t, env') /\
    random_integers 0 2 g1 = (tr_coin t, g') /\
    is_Some (Q_a policy !! state) /\ is_Some (Q_b policy !! state) /\
    if decide (tr_coin t = 0)
    then td_update_spec n gamma alpha (Q_b policy) (Q_a policy) state
           (tr_action t) (tr_next_state t) (tr_reward t)
           (tr_max_action t) (Q_b policy') (Q_a policy')
    else td_update_spec n gamma alpha (Q_a policy) (Q_b policy) state
           (tr_action t) (tr_next_state t) (tr_reward t)
           (tr_max_action t) (Q_a policy') (Q_b policy').
Proof.
  intros Hl.
  apply loop_body_Ret in Hl as (g1 & Hs & Hstep & Hcoin & _ & _ & _ & _ & Hu).
  exists g1. split; [done|]. split; [done|]. split; [done|].
  pose proof (sample_action_dom _ _ _ _ Hs) as [Ha Hb].
  apply elem_of_dom in Ha, Hb. split; [done|]. split; [done|].
  destruct (decide (tr_coin t = 0)) as [Hz|Hnz].
  - rewrite Hz in Hu. simpl in Hu. by apply update_b_Ret in Hu.
  - destruct (Nat.eqb_spec (tr_coin t) 0); [done|]. by apply update_a_Ret in Hu.
Qed.

(** A pass from well-formed tables completes, whatever the coin. *)
Lemma loop_body_completes n gamma alpha policy (env : E) (g : G) state :
  randint_in_range (F:=F) (G:=G) -> 0 < n -> shaped n policy ->
  is_Some (Q_a policy !! state) -> is_Some (Q_b policy !! state) ->
  exists t policy' env' g',
    loop_body n gamma alpha policy env g state = Ret (t, policy', env', g') /\
    tr_coin t < 2.
Proof.
  intros Hrange Hn Hsh Ha Hb.
  destruct (loop_body_returns n gamma alpha policy env g state Hrange Hn Hsh Ha Hb)
    as (t & policy' & env' & g' & Hl & _).
  exists t, policy', env', g'. split; [done|].
  apply loop_body_Ret in Hl as (g1 & _ & _ & Hcoin & _).
  pose proof (Hrange 0 2 g1 ltac:(lia)) as Hin. rewrite Hcoin in Hin.
  simpl in Hin. lia.
Qed.


(** C2, as amended. In every pass that completes, [max_action] is the
    argmax of the [next_state] row of the very table that the pass writes
    ([Q_a] on heads, [Q_b] on tails): the other table has no part in
    choosing it. The other table supplies the bootstrap value: the entry
    that the pass writes is the temporal-difference target computed from
    the entry at [max_action] of the other table's [next_state] row. From
    well-formed tables the pass does complete, whatever the coin. *)
Theorem max_action_from_updated_table n gamma alpha policy (env : E) (g : G) state :
  (forall t policy' env' g',
     loop_body n gamma alpha policy env g state = Ret (t, policy', env', g') ->
     let zeros := np_zeros n in
     let s' := tr_next_state t in
     let own := if decide (tr_coin t = 0) then Q_b policy else Q_a policy in
     let other := if decide (tr_coin t = 0) then Q_a policy else Q_b policy in
     let own' := if decide (tr_coin t = 0) then Q_b policy' else Q_a policy' in
     np_argmax (default zeros (own !! s')) = Ret (tr_max_action t) /\
     exists (row row' : list F) (old boot : F),
       own !! state = Some row /\
       row !! tr_action t = Some old /\
       default zeros (other !! s') !! tr_max_action t = Some boot /\
       own' !! state = Some row' /\
       row' !! tr_action t = Some (td_value gamma alpha (tr_reward t) old boot)) /\
  (randint_in_range (F:=F) (G:=G) -> 0 < n -> shaped n policy ->
   is_Some (Q_a policy !! state) -> is_Some (Q_b policy !! state) ->
   exists t policy' env' g',
     loop_body n gamma alpha policy env g state = Ret (t, policy', env', g') /\
     tr_coin t < 2).
Proof.
  split; [|apply loop_body_completes].
  intros t policy' env' g' Hl zeros s' own other own'.
  apply loop_body_pass in Hl as (g1 & _ & _ & _ & Ha & Hb & Hu).
  subst own other own'.
  destruct (decide (tr_coin t = 0)).
  - apply td_update_spec_cell in Hu; [|done].
    destruct Hu as (Hm & row & row' & old & boot & Hrow & Hold & Hboot & Hrow' & Hnew & _).
    split; [done|]. by exists row, row', old, boot.
  - apply td_update_spec_cell in Hu; [|done].
    destruct Hu as (Hm & row & row' & old & boot & Hrow & Hold & Hboot & Hrow' & Hnew & _).
    split; [done|]. by exists row, row', old, boot.
Qed.

End PassProperties.

Section RunProperties.
Context {State : Type} `{Countable State}.
Context {F : Type} `{Scalar F}.
Context {G : Type} `{RandomSource F G}.
Context {E : Type} `{Environment State F E}.
Implicit Types (policy p : EpsilonGreedyPolicy State F) (t : transition State F).
Implicit Types (st : episode_state State F G E) (ls : learner_state State F G E).
Implicit Types (Qa Qb Qu Qo : gmap State (list F)).

(** The passes of a finished [while True] loop: the first one is a pass of
    the loop body from the state the loop was entered in, and together they
    follow the environment. *)
Lemma while_loop_run fuel n gamma alpha st st' :
  while_loop fuel n gamma alpha st = Ret st' ->
  exists t ts policy' env' g',
    ep_trace st' = ep_trace st ++ t :: ts /\
    loop_body n gamma alpha (ep_policy st) (ep_env st) (ep_rng st) (ep_state st)
      = Ret (t, policy', env', g') /\
    follows_env (ep_env st) (ep_state st) (t :: ts) /\
    ep_env st' = env_after (ep_env st) (t :: ts).
Proof.
  revert st. induction fuel as [|fuel IH]; intros st Hw; [discriminate|].
  simpl in Hw. inv_bind Hw as [[[t policy'] env'] g'] Hl.
  pose proof Hl as Hl'.
  apply loop_body_Ret in Hl' as (g1 & _ & Hstep & _ & Hst & _).
  destruct (tr_done t) eqn:Hdone.
  - injection Hw as <-. exists t, [], policy', env', g'. simpl.
    unfold env_after. simpl. rewrite Hstep. simpl. by rewrite Hdone.
  - apply IH in Hw as (t2 & ts & p2 & e2 & g2 & Htr & _ & Hf & Henv).
    simpl in Htr, Hf, Henv.
    exists t, (t2 :: ts), policy', env', g'.
    split; [by rewrite Htr, <- app_assoc|]. split; [done|]. split.
    + cbn [follows_env]. rewrite Hstep. cbn [fst snd]. by rewrite Hdone.
    + rewrite Henv. unfold env_after. cbn [fold_left]. by rewrite Hstep.
Qed.

Lemma td_update_spec_from_zero n gamma alpha Qu Qo state action next_state reward m Qu' Qo' :
  td_update_spec n gamma alpha Qu Qo state action next_state reward m Qu' Qo' ->
  Qu !! state = Some (np_zeros n) -> Qo !! state = Some (np_zeros n) ->
  exists (rw ro : list F) (boot : F),
    Qu' !! state = Some rw /\ Qo' !! state = Some ro /\
    length rw = n /\ length ro = n /\
    (forall j, j < n -> j <> action -> rw !! j = Some fzero /\ ro !! j = Some fzero) /\
    (if decide (next_state = state) then boot = fzero
     else exists v, Qo' !! next_state = Some v /\ v !! m = Some boot) /\
    rw !! action = Some (td_value gamma alpha reward fzero boot).
Proof.
  intros (vu & vo & row & old & boot & Hvu & Hvo & Hm & Hrow & Hold & Hboot & -> & ->) Hu Ho.
  rewrite (setdefault_keeps _ _ _ _ _ Hu) in Hrow. injection Hrow as <-.
  apply lookup_replicate in Hold as [-> Hlt].
  exists (<[action := td_value gamma alpha reward fzero boot]> (np_zeros n)), (np_zeros n), boot.
  split; [apply lookup_insert_eq|].
  split; [by apply setdefault_keeps|].
  split; [by rewrite length_insert, length_np_zeros|].
  split; [apply length_np_zeros|].
  split; [|split].
  - intros j Hj Hne. rewrite list_lookup_insert_ne by done.
    unfold np_zeros. by rewrite lookup_replicate_2.
  - destruct (decide (next_state = state)) as [->|Hne].
    + rewrite (setdefault_keeps _ _ _ _ _ Ho) in Hvo. injection Hvo as <-.
      by apply lookup_replicate in Hboot as [-> _].
    + by exists vo.
  - apply list_lookup_insert_eq. by rewrite length_np_zeros.
Qed.

Lemma first_pass_zero n gamma alpha policy (env : E) (g : G) state t policy' env' g' :
  Q_a policy !! state = Some (np_zeros n) ->
  Q_b policy !! state = Some (np_zeros n) ->
  loop_body n gamma alpha policy env g state = Ret (t, policy', env', g') ->
  first_pass_from_zero n gamma alpha t.
Proof.
  intros Ha Hb Hl.
  apply loop_body_Ret in Hl as (g1 & _ & _ & _ & Hst & Hqa & Hqb & _ & Hu).
  unfold first_pass_from_zero. rewrite Hst, Hqa, Hqb.
  destruct (decide (tr_coin t = 0)) as [Hz|Hnz].
  - rewrite Hz in Hu. simpl in Hu. apply update_b_Ret in Hu.
    by apply (td_update_spec_from_zero _ _ _ _ _ _ _ _ _ _ _ _ Hu).
  - destruct (Nat.eqb_spec (tr_coin t) 0); [done|]. apply update_a_Ret in Hu.
    by apply (td_update_spec_from_zero _ _ _ _ _ _ _ _ _ _ _ _ Hu).
Qed.

(** The episodes of a finished [for] loop follow the environment, and each
    one began with zero rows for its start state. *)
Lemma episodes_run fuel count n gamma alpha ls ls' :
  episodes fuel count n gamma alpha ls = Ret ls' ->
  exists eps,
    ls_episodes ls' = ls_episodes ls ++ eps /\
    env_run (ls_env ls) eps /\
    ls_env ls' = envs_after (ls_env ls) eps /\
    Forall (fun ep => exists t ts, ep = t :: ts /\ first_pass_from_zero n gamma alpha t) eps.
Proof.
  revert ls. induction count as [|count IH]; intros ls He; simpl in He.
  - injection He as <-. exists []. by rewrite app_nil_r.
  - inv_bind He as st Hw.
    pose proof Hw as Hw'.
    apply while_loop_Ret in Hw' as (ts0 & Htr0 & _ & _ & Hc & _).
    apply while_loop_run in Hw as (t & ts & policy' & env' & g' & Htr & Hl & Hf & Henv).
    destruct (episode_start_fields n (ls_policy ls) (ls_env ls) (ls_rng ls))
      as (_ & _ & Htr1 & Hst & Hev & _ & Hqa & Hqb & _).
    rewrite Htr1 in Htr, Htr0. simpl in Htr, Htr0.
    rewrite Hst, Hev in Hf. rewrite Hev in Henv. rewrite Hst in Hl.
    assert (ts0 = t :: ts) as -> by congruence.
    apply first_pass_zero in Hl;
      [|by rewrite Hqa, lookup_insert_eq|by rewrite Hqb, lookup_insert_eq].
    apply IH in He as (eps & Heps & Hrun & Hend & Hall). simpl in Heps, Hrun, Hend.
    exists ((t :: ts) :: eps).
    split; [by rewrite Heps, Htr, <- app_assoc|].
    split; [|split].
    + cbn [env_run]. rewrite <- Henv. done.
    + rewrite Hend, Henv. done.
    + constructor; [|done]. by exists t, ts.
Qed.

(** A call on well-formed input returns. *)
Lemma double_q_learning_returns n (env : E) policy num_episodes Qa_arg Qb_arg
    gamma alpha show (g : G) :
  randint_in_range (F:=F) (G:=G) ->
  terminating (State:=State) (F:=F) (E:=E) n ->
  (1 <= num_episodes)%Z ->
  get_num_actions (State:=State) (F:=F) env = Ret n ->
  0 < n ->
  shaped n (install_tables policy Qa_arg Qb_arg) ->
  synced (install_tables policy Qa_arg Qb_arg) ->
  exists fuel res,
    double_q_learning fuel env policy num_episodes Qa_arg Qb_arg gamma alpha show g
      = Ret res.
Proof.
  intros Hrange Hterm Hne Hn Hpos Hsh Hsy.
  destruct (episodes_returns n gamma alpha (Z.to_nat num_episodes) Hrange Hpos Hterm
              {| ls_stats := []; ls_policy := install_tables policy Qa_arg Qb_arg;
                 ls_env := env; ls_rng := g; ls_episodes := [] |} Hsh)
    as (fuel & ls & He).
  pose proof He as He'.
  apply episodes_Ret in He' as (eps & Hlen & _ & Hstats & _ & _ & _ & Hreach).
  simpl in *. specialize (Hreach _ (reach_initial _ _ _ _)).
  pose proof (reachable_synced _ _ _ _ _ Hsy Hreach) as Hsy'.
  pose proof (reachable_shaped _ _ _ _ _ Hsh Hreach) as [Hsa Hsb].
  destruct (merge_tables_returns (Q_a (ls_policy ls)) (Q_b (ls_policy ls)))
    as [Q HQ].
  { intros k va Hk.
    assert (Hin : k ∈ dom (Q_b (ls_policy ls))).
    { rewrite <- Hsy'. by eapply elem_of_dom_2. }
    apply elem_of_dom in Hin as [vb Hb]. exists vb. split; [done|].
    eexists. apply np_add_same_length.
    rewrite (Hsa _ _ Hk), (Hsb _ _ Hb). done. }
  destruct eps as [|ep eps]; [simpl in Hlen; lia|].
  exists fuel. eexists. unfold double_q_learning.
  rewrite Hn, bind_Ret_l.
  replace (episode_range show num_episodes) with (Z.to_nat num_episodes)
    by by destruct show.
  rewrite He, bind_Ret_l, Hstats. simpl. rewrite HQ. simpl. done.
Qed.


Lemma merge_along_app (pre post : list State) Qa Qb (Q : gmap State (list F)) :
  merge_along (pre ++ post) Qa Qb Q
  = (Q1 ← merge_along pre Qa Qb Q; merge_along post Qa Qb Q1).
Proof.
  revert Q. induction pre as [|k pre IH]; intros Q; simpl; [done|].
  destruct (dict_getitem Qa k) as [va| |]; simpl; [|done..].
  destruct (dict_getitem Qb k) as [vb| |]; simpl; [|done..].
  destruct (np_add va vb) as [v| |]; simpl; [|done..].
  apply IH.
Qed.

Lemma merge_along_Ret (keys : list State) Qa Qb (Q Q' : gmap State (list F)) :
  merge_along keys Qa Qb Q = Ret Q' ->
  (forall k, k ∈ keys ->
     exists va vb v, Qa !! k = Some va /\ Qb !! k = Some vb /\
                     np_add va vb = Ret v /\ Q' !! k = Some v) /\
  (forall k, k ∉ keys -> Q' !! k = Q !! k).
Proof.
  revert Q. induction keys as [|k0 keys IH]; intros Q Hm; simpl in Hm.
  - injection Hm as <-. split; [|done]. intros k Hk. by apply elem_of_nil in Hk.
  - inv_bind Hm as va0 Ha0. inv_bind Hm as vb0 Hb0. inv_bind Hm as v0 Hv0.
    apply dict_getitem_Ret in Ha0, Hb0.
    apply IH in Hm as [Hin Hout]. split.
    + intros k Hk. destruct (decide (k ∈ keys)) as [Hks|Hks]; [by apply Hin|].
      apply elem_of_cons in Hk as [->|Hk]; [|done].
      exists va0, vb0, v0. rewrite (Hout _ Hks), lookup_insert_eq. done.
    + intros k Hk. apply not_elem_of_cons in Hk as [Hne Hks].
      rewrite (Hout _ Hks). by apply lookup_insert_ne.
Qed.

Lemma merge_along_returns (keys : list State) Qa Qb (Q : gmap State (list F)) :
  (forall k, k ∈ keys ->
     exists va vb, Qa !! k = Some va /\ Qb !! k = Some vb /\ returns (np_add va vb)) ->
  returns (merge_along keys Qa Qb Q).
Proof.
  revert Q. induction keys as [|k0 keys IH]; intros Q Hall; simpl.
  - by exists Q.
  - destruct (Hall k0) as (va & vb & Ha & Hb & [v Hv]); [by left|].
    unfold dict_getitem. rewrite Ha, Hb. simpl. rewrite Hv. simpl.
    apply IH. intros k Hk. apply Hall. by right.
Qed.

(** On the keys of [Q_a], in whatever order, the loop of lines 114-116
    returns exactly when the traversal of the model does, and then with the
    same merged table. *)
Lemma merge_along_tables (keys : list State) Qa Qb (Q : gmap State (list F)) :
  (forall k, k ∈ keys <-> k ∈ dom Qa) ->
  merge_along keys Qa Qb ∅ = Ret Q <-> merge_tables Qa Qb = Ret Q.
Proof.
  intros Hkeys.
  assert (Hsame : forall Q1 Q2,
    merge_along keys Qa Qb ∅ = Ret Q1 -> merge_tables Qa Qb = Ret Q2 -> Q1 = Q2).
  { intros Q1 Q2 Hm1 Hm2. apply merge_along_Ret in Hm1 as [Hin Hout].
    apply merge_tables_Ret in Hm2 as [Hdom HQ]. apply map_eq. intros k.
    destruct (decide (k ∈ keys)) as [Hk|Hk].
    - destruct (Hin k Hk) as (va & vb & v & Ha & Hb & Hv & ->).
      destruct (HQ k va Ha) as (vb' & v' & Hb' & Hv' & ->). congruence.
    - rewrite (Hout k Hk), lookup_empty. symmetry.
      apply not_elem_of_dom. rewrite Hdom. by rewrite <- Hkeys. }
  split; intros Hm.
  - destruct (merge_tables_returns Qa Qb) as [Q2 Hm2].
    { intros k va Hk. apply merge_along_Ret in Hm as [Hin _].
      destruct (Hin k) as (va' & vb & v & Ha & Hb & Hv & _).
      { apply Hkeys. by eapply elem_of_dom_2. }
      exists vb. split; [done|]. exists v. congruence. }
    by rewrite (Hsame Q Q2 Hm Hm2).
  - destruct (merge_along_returns keys Qa Qb ∅) as [Q1 Hm1].
    { intros k Hk. apply Hkeys, elem_of_dom in Hk as [va Ha].
      apply merge_tables_Ret in Hm as [_ HQ].
      destruct (HQ k va Ha) as (vb & v & Hb & Hv & _).
      exists va, vb. split; [done|]. split; [done|]. by exists v. }
    by rewrite <- (Hsame Q1 Q Hm1 Hm).
Qed.

(** C4. Whenever [double_q_learning] returns, the tables it leaves in the
    policy are the tables that the loop over the episodes ended with, and
    the returned table [Q] has exactly the keys of that final [Q_a]; for
    each of them the row [Q[s]] is the numpy sum [Q_a[s] + Q_b[s]] of the
    two final rows, so that [Q[s][a] = Q_a[s][a] + Q_b[s][a]] at every
    action index [a] of the two rows. On well-formed input (at least one
    episode, [n > 0] actions, rows of length [n], equal key sets, a
    [randint] within its range, episodes that terminate) the call does
    return. *)
Theorem merge_correctness (env : E) policy num_episodes Qa_arg Qb_arg
    gamma alpha show (g : G) :
  (forall fuel res,
     double_q_learning fuel env policy num_episodes Qa_arg Qb_arg gamma alpha show g
       = Ret res ->
     exists n ls,
       get_num_actions (State:=State) (F:=F) env = Ret n /\
       episodes fuel (Z.to_nat num_episodes) n gamma alpha
         {| ls_stats := []; ls_policy := install_tables policy Qa_arg Qb_arg;
            ls_env := env; ls_rng := g; ls_episodes := [] |} = Ret ls /\
       res_policy res = ls_policy ls /\
       dom (res_Q res) = dom (Q_a (ls_policy ls)) /\
       forall s va, Q_a (ls_policy ls) !! s = Some va ->
         exists vb q,
           Q_b (ls_policy ls) !! s = Some vb /\
           res_Q res !! s = Some q /\
           np_add va vb = Ret q /\
           forall a x y, va !! a = Some x -> vb !! a = Some y ->
                         q !! a = Some (fadd x y)) /\
  (forall n,
     randint_in_range (F:=F) (G:=G) ->
     terminating (State:=State) (F:=F) (E:=E) n ->
     (1 <= num_episodes)%Z ->
     get_num_actions (State:=State) (F:=F) env = Ret n ->
     0 < n ->
     shaped n (install_tables policy Qa_arg Qb_arg) ->
     synced (install_tables policy Qa_arg Qb_arg) ->
     exists fuel res,
       double_q_learning fuel env policy num_episodes Qa_arg Qb_arg gamma alpha show g
         = Ret res).
Proof.
  split.
  - intros fuel res Hd.
    apply double_q_learning_Ret in Hd
      as (n & ls & Hn & He & _ & _ & _ & Hm & Hp & _).
    exists n, ls. split; [done|]. split; [done|]. split; [done|].
    apply merge_tables_Ret in Hm as [Hdom HQ]. split; [done|].
    intros s va Hs. destruct (HQ s va Hs) as (vb & q & Hb & Hadd & Hq).
    exists vb, q. split; [done|]. split; [done|]. split; [done|].
    intros a x y Hx Hy. by eapply np_add_lookup.
  - intros n. apply double_q_learning_returns.
Qed.


(** C7, as amended. On well-formed input (at least one episode, [n > 0]
    actions, rows of length [n], equal key sets, a [randint] within its
    range, episodes that terminate) the call returns. Whenever it returns,
    the two statistics sequences have [num_episodes] entries each, in the
    order in which the episodes were run; the passes of the episodes are
    the steps of the environment, from each [env.reset()] to the first
    [done]; entry [i] of [episode_lengths] is the number of these steps in
    episode [i], and entry [i] of [episode_returns] is their rewards added
    up in order, starting from zero, by the addition of the scalars. *)
Theorem statistics_alignment (env : E) policy num_episodes Qa_arg Qb_arg
    gamma alpha show (g : G) :
  (forall n,
     randint_in_range (F:=F) (G:=G) ->
     terminating (State:=State) (F:=F) (E:=E) n ->
     (1 <= num_episodes)%Z ->
     get_num_actions (State:=State) (F:=F) env = Ret n ->
     0 < n ->
     shaped n (install_tables policy Qa_arg Qb_arg) ->
     synced (install_tables policy Qa_arg Qb_arg) ->
     exists fuel res,
       double_q_learning fuel env policy num_episodes Qa_arg Qb_arg gamma alpha show g
         = Ret res) /\
  (forall fuel res,
     double_q_learning fuel env policy num_episodes Qa_arg Qb_arg gamma alpha show g
       = Ret res ->
     Z.of_nat (length (res_episode_lengths res)) = num_episodes /\
     Z.of_nat (length (res_episode_returns res)) = num_episodes /\
     Z.of_nat (length (res_episodes res)) = num_episodes /\
     env_run env (res_episodes res) /\
     res_episode_lengths res = length <$> res_episodes res /\
     res_episode_returns res = episode_return <$> res_episodes res).
Proof.
  split.
  - intros n. apply double_q_learning_returns.
  - intros fuel res Hd.
    apply double_q_learning_Ret in Hd
      as (n & ls & _ & He & Hne & -> & -> & _ & _ & _ & _ & ->).
    pose proof He as He'.
    apply episodes_run in He' as (eps' & Heps' & Hrun & _).
    apply episodes_Ret in He as (eps & Hlen & Heps & Hstats & _).
    cbn [ls_stats ls_episodes ls_env] in Hstats, Heps, Heps', Hrun.
    rewrite app_nil_l in Hstats, Heps, Heps'.
    assert (eps' = eps) as -> by congruence.
    rewrite Hstats in Hne |- *. rewrite Heps, stats_lengths, stats_returns.
    rewrite !length_fmap, Hlen.
    assert (Hpos : (1 <= num_episodes)%Z).
    { destruct eps as [|ep eps]; [done|]. simpl in Hlen. lia. }
    repeat split; try done; lia.
Qed.

(** C9, as amended. Let [keys] be the keys of [Q_a] in the order in which
    [Q_a.keys()] hands them out. The merge loop returns exactly when every
    key of [Q_a] is a key of [Q_b] and the two rows can be added, and then
    with the table that the traversal of the model builds. Otherwise the
    first key at which this fails decides: [KeyError] when the key is
    missing from [Q_b], [ValueError] when the two rows cannot be added. So
    a key of [Q_a] that is missing from [Q_b] keeps the merge from
    returning in every order, and a call whose episodes end with such
    tables raises instead of returning. *)
Theorem merge_requires_keys_in_Q_b (keys : list State) Qa Qb :
  (forall k, k ∈ keys <-> k ∈ dom Qa) ->
  (forall Q, merge_along keys Qa Qb ∅ = Ret Q <-> merge_tables Qa Qb = Ret Q) /\
  (returns (merge_along keys Qa Qb ∅) <->
   forall k va, Qa !! k = Some va ->
     exists vb, Qb !! k = Some vb /\ returns (np_add va vb)) /\
  (forall pre k post va,
     keys = pre ++ k :: post ->
     Qa !! k = Some va ->
     (forall k' va', k' ∈ pre -> Qa !! k' = Some va' ->
        exists vb', Qb !! k' = Some vb' /\ returns (np_add va' vb')) ->
     (Qb !! k = None -> merge_along keys Qa Qb ∅ = Raise KeyError) /\
     (forall vb, Qb !! k = Some vb -> ~ returns (np_add va vb) ->
        merge_along keys Qa Qb ∅ = Raise ValueError)) /\
  (forall k, k ∈ dom Qa -> k ∉ dom Qb ->
     ~ returns (merge_along keys Qa Qb ∅) /\ ~ returns (merge_tables Qa Qb)) /\
  (forall fuel (env : E) policy num_episodes Qa_arg Qb_arg gamma alpha show
          (g : G) n ls,
     get_num_actions (State:=State) (F:=F) env = Ret n ->
     episodes fuel (Z.to_nat num_episodes) n gamma alpha
       {| ls_stats := []; ls_policy := install_tables policy Qa_arg Qb_arg;
          ls_env := env; ls_rng := g; ls_episodes := [] |} = Ret ls ->
     Q_a (ls_policy ls) = Qa -> Q_b (ls_policy ls) = Qb ->
     forall k, k ∈ dom Qa -> k ∉ dom Qb ->
     double_q_learning fuel env policy num_episodes Qa_arg Qb_arg gamma alpha show g
       = Raise KeyError \/
     double_q_learning fuel env policy num_episodes Qa_arg Qb_arg gamma alpha show g
       = Raise ValueError).
Proof.
  intros Hkeys.
  assert (Hret : returns (merge_along keys Qa Qb ∅) <->
    forall k va, Qa !! k = Some va ->
      exists vb, Qb !! k = Some vb /\ returns (np_add va vb)).
  { split.
    - intros [Q HQ] k va Hk. apply merge_along_Ret in HQ as [Hin _].
      destruct (Hin k) as (va' & vb & v & Ha & Hb & Hv & _).
      { apply Hkeys. by eapply elem_of_dom_2. }
      exists vb. split; [done|]. exists v. congruence.
    - intros Hall. apply merge_along_returns. intros k Hk.
      apply Hkeys, elem_of_dom in Hk as [va Ha].
      destruct (Hall k va Ha) as (vb & Hb & Hv). by exists va, vb. }
  assert (Hmiss : forall k, k ∈ dom Qa -> k ∉ dom Qb ->
    ~ returns (merge_along keys Qa Qb ∅) /\ ~ returns (merge_tables Qa Qb)).
  { intros k Hin Hout. apply elem_of_dom in Hin as [va Ha].
    assert (Hno : ~ returns (merge_along keys Qa Qb ∅)).
    { intros Hr. destruct (proj1 Hret Hr k va Ha) as (vb & Hb & _).
      by apply elem_of_dom_2 in Hb. }
    split; [done|]. intros [Q HQ]. apply Hno. exists Q.
    by apply merge_along_tables. }
  split; [intros Q; by apply merge_along_tables|].
  split; [done|]. split; [|split; [done|]].
  - intros pre k post va -> Ha Hpre.
    destruct (merge_along_returns pre Qa Qb ∅) as [Q1 Hm1].
    { intros k' Hk'.
      assert (Hin : k' ∈ dom Qa).
      { apply Hkeys, elem_of_app. by left. }
      apply elem_of_dom in Hin as [va' Ha'].
      destruct (Hpre k' va' Hk' Ha') as (vb' & Hb' & Hv'). by exists va', vb'. }
    rewrite merge_along_app, Hm1, bind_Ret_l. simpl.
    unfold dict_getitem. rewrite Ha. simpl. split.
    + intros ->. done.
    + intros vb -> Hno. simpl.
      destruct (np_add_outcome va vb) as [Hr| ->]; [done|]. done.
  - intros fuel env policy ne Qa_arg Qb_arg gamma alpha show g n ls Hn He <- <- k Hin Hout.
    destruct (Hmiss k Hin Hout) as [_ Hno].
    unfold double_q_learning. rewrite Hn, bind_Ret_l.
    replace (episode_range show ne) with (Z.to_nat ne) by by destruct show.
    rewrite He, bind_Ret_l.
    destruct (unzip_stats (ls_stats ls)) as [[lens rets]|e|] eqn:Hz.
    + rewrite bind_Ret_l.
      pose proof (merge_tables_outcome (Q_a (ls_policy ls)) (Q_b (ls_policy ls))) as Hs.
      destruct (merge_tables (Q_a (ls_policy ls)) (Q_b (ls_policy ls))) as [Q|e|];
        simpl in Hs |- *.
      * exfalso. apply Hno. by exists Q.
      * destruct Hs as [[-> _]|[-> _]]; auto.
      * done.
    + right. simpl. unfold unzip_stats in Hz. destruct (ls_stats ls); by simplify_eq.
    + unfold unzip_stats in Hz. destruct (ls_stats ls); discriminate.
Qed.

End RunProperties.

(** * The properties at work on the corridor *)

Section ChainFacts.
Import Chain.

Lemma Z_leb_total : fleb_total (F:=Z).
Proof. intros x y. simpl. rewrite !Z.leb_le. lia. Qed.

Lemma Z_leb_transitive : fleb_transitive (F:=Z).
Proof. intros x y z. simpl. rewrite !Z.leb_le. lia. Qed.

Lemma tape_in_range : randint_in_range (F:=Z) (G:=list nat).
Proof.
  intros lo hi g Hlt. simpl. destruct (tape_next g) as [x g']. simpl.
  pose proof (Nat.mod_upper_bound x (hi - lo)). lia.
Qed.

Lemma corridor_halts (pos : nat) : halts (State:=nat) (F:=Z) 2 pos.
Proof.
  assert (Hfar : forall p, 2 <= p -> halts (State:=nat) (F:=Z) 2 p).
  { intros p Hp. constructor. intros action _ Hdone. simpl in Hdone.
    destruct p as [|[|p]]; [lia|lia|discriminate]. }
  destruct pos as [|[|pos]].
  - constructor. intros action _ _. simpl.
    constructor. intros action' _ _. simpl. apply Hfar. lia.
  - constructor. intros action _ _. simpl. apply Hfar. lia.
  - apply Hfar. lia.
Qed.

Lemma corridor_terminating : terminating (State:=nat) (F:=Z) (E:=nat) 2.
Proof. intros env. apply corridor_halts. Qed.

Lemma well_shaped_empty (n : nat) : well_shaped n (∅ : gmap nat (list Z)).
Proof. intros s v Hs. by rewrite lookup_empty in Hs. Qed.

Lemma seeded_policy_shaped : shaped 2 seeded_policy.
Proof.
  split; simpl; repeat apply well_shaped_insert;
    try apply well_shaped_empty; reflexivity.
Qed.

Lemma seeded_pass_runs :
  loop_body 2 1%Z 1%Z seeded_policy 0 [5; 1] 0
  = Ret (seeded_pass, seeded_policy_after, 1, []).
Proof. vm_compute. reflexivity. Qed.

Lemma two_episodes_runs :
  double_q_learning 10 0 (empty_policy 5) 2 None None 1%Z 1%Z true
    two_episodes_tape = Ret two_episodes_result.
Proof. vm_compute. reflexivity. Qed.

Lemma tails_pass_runs :
  loop_body 2 1%Z 1%Z seeded_policy 0 [0; 1; 0] 0
  = Ret (tails_pass, tails_policy_after, 1, []).
Proof. vm_compute. reflexivity. Qed.

Lemma fresh_policy_shaped : shaped 2 fresh_policy.
Proof.
  split; simpl; repeat apply well_shaped_insert;
    try apply well_shaped_empty; reflexivity.
Qed.

Lemma fresh_pass_runs :
  loop_body 2 1%Z 1%Z fresh_policy 0 [5; 1] 0
  = Ret (fresh_pass, fresh_policy_after, 1, []).
Proof. vm_compute. reflexivity. Qed.

Lemma empty_policy_shaped (eps : Z) :
  shaped 2 (install_tables (empty_policy eps) None None).
Proof. split; apply well_shaped_empty. Qed.

Lemma lopsided_keys_12 (k : nat) : k ∈ [1; 2] <-> k ∈ dom lopsided_a.
Proof.
  unfold lopsided_a. rewrite dom_insert_L, dom_singleton_L.
  rewrite elem_of_union, !elem_of_singleton, !elem_of_cons, elem_of_nil. tauto.
Qed.

Lemma lopsided_keys_21 (k : nat) : k ∈ [2; 1] <-> k ∈ dom lopsided_a.
Proof.
  unfold lopsided_a. rewrite dom_insert_L, dom_singleton_L.
  rewrite elem_of_union, !elem_of_singleton, !elem_of_cons, elem_of_nil. tauto.
Qed.

Lemma lopsided_rows_differ : ~ returns (np_add [0; 0; 0]%Z [0; 0]%Z).
Proof. intros [v Hv]. discriminate. Qed.

End ChainFacts.

Section JackpotFacts.
Import Jackpot.

Lemma jackpot_terminating : terminating (State:=nat) (F:=int64) (E:=jackpot_env) 1.
Proof.
  intros env. simpl. constructor. intros action _ _. simpl.
  constructor. intros action' _ Hdone. simpl in Hdone. discriminate.
Qed.

Lemma jackpot_runs :
  double_q_learning 5 (Pulls 0) jackpot_policy 1 None None (Int64 1) (Int64 1)
    true [] = Ret jackpot_result.
Proof. vm_compute. reflexivity. Qed.

End JackpotFacts.

Import Chain.


(** C2, as stated, fails on [seeded_pass]: the pass writes [Q_a] (heads) and
    leaves [Q_b] as it was, yet its [max_action], 1, is the argmax of
    [Q_a[next_state] = [0; 5]], the table being written, and not the argmax
    of [Q_b[next_state] = [7; 3]], the other table, which is 0. *)
Lemma max_action_from_other_table_counterexample :
  exists t policy' env' g',
    loop_body 2 1%Z 1%Z seeded_policy 0 [5; 1] 0 = Ret (t, policy', env', g') /\
    tr_coin t = 1 /\
    Q_a policy' !! 0 = Some [3; 0]%Z /\ Q_a seeded_policy !! 0 = Some [0; 0]%Z /\
    Q_b policy' = Q_b seeded_policy /\
    Q_a seeded_policy !! tr_next_state t = Some [0; 5]%Z /\
    Q_b seeded_policy !! tr_next_state t = Some [7; 3]%Z /\
    np_argmax [0; 5]%Z = Ret (tr_max_action t) /\
    np_argmax [7; 3]%Z <> Ret (tr_max_action t).
Proof.
  exists seeded_pass, seeded_policy_after, 1, [].
  split; [exact seeded_pass_runs|].
  repeat split; try (vm_compute; reflexivity).
  vm_compute. discriminate.
Qed.

(** The amended C2 on the same two passes: heads picks [max_action] in
    [Q_a[1]] and bootstraps from [Q_b[1][1] = 3]; tails picks it in [Q_b[1]]
    and bootstraps from [Q_a[1][0] = 0]. *)
Lemma max_action_from_updated_table_witness :
  ((np_argmax (default (np_zeros 2) (Q_a seeded_policy !! 1)) = Ret 1 /\
    exists (row row' : list Z) (old boot : Z),
      Q_a seeded_policy !! 0 = Some row /\
      row !! 0 = Some old /\
      default (np_zeros 2) (Q_b seeded_policy !! 1) !! 1 = Some boot /\
      Q_a seeded_policy_after !! 0 = Some row' /\
      row' !! 0 = Some (td_value 1%Z 1%Z 0%Z old boot)) /\
   (np_argmax (default (np_zeros 2) (Q_b seeded_policy !! 1)) = Ret 0 /\
    exists (row row' : list Z) (old boot : Z),
      Q_b seeded_policy !! 0 = Some row /\
      row !! 1 = Some old /\
      default (np_zeros 2) (Q_a seeded_policy !! 1) !! 0 = Some boot /\
      Q_b tails_policy_after !! 0 = Some row' /\
      row' !! 1 = Some (td_value 1%Z 1%Z 1%Z old boot))) /\
  (exists t policy' env' g',
     loop_body 2 1%Z 1%Z seeded_policy 0 [0; 1; 0] 0 = Ret (t, policy', env', g') /\
     tr_coin t < 2).
Proof.
  split; [split|].
  - destruct (max_action_from_updated_table 2 1%Z 1%Z seeded_policy 0 [5; 1] 0)
      as [Hrule _].
    exact (Hrule seeded_pass seeded_policy_after 1 [] seeded_pass_runs).
  - destruct (max_action_from_updated_table 2 1%Z 1%Z seeded_policy 0 [0; 1; 0] 0)
      as [Hrule _].
    exact (Hrule tails_pass tails_policy_after 1 [] tails_pass_runs).
  - destruct (max_action_from_updated_table 2 1%Z 1%Z seeded_policy 0 [0; 1; 0] 0)
      as [_ Hret].
    exact (Hret tape_in_range (Nat.lt_0_succ 1) seeded_policy_shaped
                (mk_is_Some _ _ eq_refl) (mk_is_Some _ _ eq_refl)).
Defined.

Lemma key_synchronization_witness :
  (forall p, reachable (G:=list nat) (E:=nat) 2 1%Z 1%Z (empty_policy 5) p ->
             synced p) /\
  (forall fuel (env : nat) policy num_episodes Qa_arg Qb_arg show (g : list nat) res,
     install_tables policy Qa_arg Qb_arg = empty_policy 5 ->
     double_q_learning fuel env policy num_episodes Qa_arg Qb_arg 1%Z 1%Z show g
       = Ret res ->
     dom (Q_a (res_policy res)) = dom (Q_b (res_policy res)) /\
     Forall (Forall (fun t => dom (tr_Q_a t) = dom (tr_Q_b t))) (res_episodes res)).
Proof.
  apply (key_synchronization (G:=list nat) (E:=nat) 2 1%Z 1%Z (empty_policy 5)).
  reflexivity.
Defined.

(** The merge of the two episodes in the corridor. *)
Lemma merge_correctness_witness :
  (exists n ls,
     get_num_actions (State:=nat) (F:=Z) 0 = Ret n /\
     episodes 10 (Z.to_nat 2) n 1%Z 1%Z
       {| ls_stats := []; ls_policy := install_tables (empty_policy 5) None None;
          ls_env := 0; ls_rng := two_episodes_tape; ls_episodes := [] |} = Ret ls /\
     res_policy two_episodes_result = ls_policy ls /\
     dom (res_Q two_episodes_result) = dom (Q_a (ls_policy ls)) /\
     forall s va, Q_a (ls_policy ls) !! s = Some va ->
       exists vb q,
         Q_b (ls_policy ls) !! s = Some vb /\
         res_Q two_episodes_result !! s = Some q /\
         np_add va vb = Ret q /\
         forall a x y, va !! a = Some x -> vb !! a = Some y ->
                       q !! a = Some (x + y)%Z) /\
  (exists fuel res,
     double_q_learning fuel 0 (empty_policy 5) 2 None None 1%Z 1%Z true
       two_episodes_tape = Ret res).
Proof.
  destruct (merge_correctness 0 (empty_policy 5) 2 None None 1%Z 1%Z true
              two_episodes_tape) as [Hspec Hret].
  split.
  - exact (Hspec 10 two_episodes_result two_episodes_runs).
  - apply (Hret 2 tape_in_range corridor_terminating).
    + lia.
    + reflexivity.
    + lia.
    + exact (empty_policy_shaped 5).
    + reflexivity.
Defined.

(** In cell 1 of [seeded_policy] the combined row is [[7; 8]]; the draw 5
    exceeds epsilon, and the greedy action is 1. *)
Lemma sample_action_spec_witness :
  exists action,
    sample_action seeded_policy 1 [5] = Ret (action, []) /\
    first_maximum [7; 8]%Z action.
Proof.
  exact (sample_action_spec Z_leb_total Z_leb_transitive tape_in_range
           seeded_policy 1 [5] [0; 5]%Z [7; 3]%Z
           eq_refl eq_refl eq_refl (Nat.lt_0_succ 1)).
Defined.


(** C7, as stated, fails on the jackpot machine, whose rewards are
    [np.int64] values: the one episode takes two steps with reward [2^62]
    each, the exact sum of the two rewards is [2^63], and the returned
    episode return is [-2^63], what 64 bits keep of it. *)
Lemma exact_sum_counterexample :
  terminating (State:=nat) (F:=Jackpot.int64) (E:=Jackpot.jackpot_env) 1 /\
  double_q_learning 5 (Jackpot.Pulls 0) Jackpot.jackpot_policy 1 None None
    (Jackpot.Int64 1) (Jackpot.Int64 1) true [] = Ret Jackpot.jackpot_result /\
  map (map (fun t : transition nat Jackpot.int64 =>
              Jackpot.int64_value (tr_reward t)))
    (res_episodes Jackpot.jackpot_result) = [[2 ^ 62; 2 ^ 62]%Z] /\
  res_episode_lengths Jackpot.jackpot_result = [2] /\
  map Jackpot.int64_value (res_episode_returns Jackpot.jackpot_result)
    = [(- 2 ^ 63)%Z] /\
  (2 ^ 62 + 2 ^ 62)%Z <> (- 2 ^ 63)%Z.
Proof.
  split; [exact jackpot_terminating|]. split; [exact jackpot_runs|].
  split; [vm_compute; reflexivity|]. split; [vm_compute; reflexivity|].
  split; [vm_compute; reflexivity|].
  intros Hsum. vm_compute in Hsum. discriminate Hsum.
Qed.

(** The statistics of the two episodes in the corridor. *)
Lemma statistics_alignment_witness :
  (exists fuel res,
     double_q_learning fuel 0 (empty_policy 5) 2 None None 1%Z 1%Z true
       two_episodes_tape = Ret res) /\
  (Z.of_nat (length (res_episode_lengths two_episodes_result)) = 2%Z /\
   Z.of_nat (length (res_episode_returns two_episodes_result)) = 2%Z /\
   Z.of_nat (length (res_episodes two_episodes_result)) = 2%Z /\
   env_run 0 (res_episodes two_episodes_result) /\
   res_episode_lengths two_episodes_result
     = length <$> res_episodes two_episodes_result /\
   res_episode_returns two_episodes_result
     = episode_return <$> res_episodes two_episodes_result).
Proof.
  destruct (statistics_alignment 0 (empty_policy 5) 2 None None 1%Z 1%Z true
              two_episodes_tape) as [Hret Hspec].
  split.
  - apply (Hret 2 tape_in_range corridor_terminating).
    + lia.
    + reflexivity.
    + lia.
    + exact (empty_policy_shaped 5).
    + reflexivity.
  - exact (Hspec 10 two_episodes_result two_episodes_runs).
Defined.

(** C9, as stated, fails on [unsynced_call]: state 5 is a key of [Q_a] that
    is never inserted into [Q_b]; the merge step, and with it the call,
    raises [KeyError]. *)
Lemma unsynced_merge_counterexample :
  merge_tables {[5 := [0; 0]%Z]} (∅ : gmap nat (list Z)) = Raise KeyError /\
  unsynced_call = Raise KeyError.
Proof. split; vm_compute; reflexivity. Qed.

(** The merge of [lopsided_a] and [lopsided_b]: state 1 has rows that cannot
    be added and state 2 is missing from the second table. When state 1
    comes first the loop raises [ValueError]; when state 2 comes first it
    raises [KeyError]. *)
Lemma merge_requires_keys_in_Q_b_witness :
  merge_along [1; 2] lopsided_a lopsided_b ∅ = Raise ValueError /\
  merge_along [2; 1] lopsided_a lopsided_b ∅ = Raise KeyError.
Proof.
  split.
  - destruct (merge_requires_keys_in_Q_b (G:=list nat) (E:=nat)
                [1; 2] lopsided_a lopsided_b lopsided_keys_12)
      as (_ & _ & Hfirst & _).
    destruct (Hfirst [] 1 [2] [0; 0; 0]%Z eq_refl eq_refl) as [_ Hrows].
    + intros k' va' Hk'. by apply elem_of_nil in Hk'.
    + exact (Hrows [0; 0]%Z eq_refl lopsided_rows_differ).
  - destruct (merge_requires_keys_in_Q_b (G:=list nat) (E:=nat)
                [2; 1] lopsided_a lopsided_b lopsided_keys_21)
      as (_ & _ & Hfirst & _).
    destruct (Hfirst [] 2 [1] [0; 0]%Z eq_refl eq_refl) as [Hkey _].
    + intros k' va' Hk'. by apply elem_of_nil in Hk'.
    + exact (Hkey eq_refl).
Defined.

Lemma zero_episodes_raises_witness :
  double_q_learning 10 0 (empty_policy 5) 0 None None 1%Z 1%Z true two_episodes_tape
  = Raise ValueError.
Proof.
  destruct (zero_episodes_raises 10 0 (empty_policy 5) None None 1%Z 1%Z true
              two_episodes_tape) as [_ Hraise].
  exact (Hraise 2 eq_refl).
Defined.

(** * Further properties of the policy and the learner *)

Section FurtherProperties.
Context {State : Type} `{Countable State}.
Context {F : Type} `{Scalar F}.
Context {G : Type} `{RandomSource F G}.
Context {E : Type} `{Environment State F E}.
Implicit Types (policy p : EpsilonGreedyPolicy State F) (t : transition State F).
Implicit Types (st : episode_state State F G E) (ls : learner_state State F G E).
Implicit Types (Qa Qb Qu Qo : gmap State (list F)).

Lemma td_update_spec_max_action n gamma alpha Qu Qo state action next_state reward m Qu' Qo' :
  td_update_spec n gamma alpha Qu Qo state action next_state reward m Qu' Qo' ->
  well_shaped n Qo -> m < n.
Proof.
  intros (vu & vo & row & old & boot & _ & Hvo & _ & _ & _ & Hboot & _) Ho.
  apply lookup_lt_Some in Hboot.
  by rewrite (well_shaped_setdefault n Qo next_state Ho _ _ Hvo) in Hboot.
Qed.

(** X1. A pass of the loop body from well-formed tables raises nothing: with
    rows of [n > 0] entries, the current state present in both tables and a
    [randint] that honours its range, the pass completes, its action and its
    [max_action] are valid indices, the rows still have [n] entries and
    [next_state] is present in both tables for the next pass. *)
Theorem pass_is_safe n gamma alpha policy (env : E) (g : G) state :
  randint_in_range (F:=F) (G:=G) -> 0 < n -> shaped n policy ->
  is_Some (Q_a policy !! state) -> is_Some (Q_b policy !! state) ->
  exists t policy' env' g',
    loop_body n gamma alpha policy env g state = Ret (t, policy', env', g') /\
    tr_action t < n /\ tr_max_action t < n /\
    shaped n policy' /\
    is_Some (Q_a policy' !! tr_next_state t) /\
    is_Some (Q_b policy' !! tr_next_state t).
Proof.
  intros Hrange Hn Hsh Ha Hb.
  destruct (loop_body_returns n gamma alpha policy env g state Hrange Hn Hsh Ha Hb)
    as (t & policy' & env' & g' & Hl & Hact).
  exists t, policy', env', g'. split; [done|]. split; [done|].
  pose proof (loop_body_dom _ _ _ _ _ _ _ _ _ _ _ Hl) as [Hda Hdb].
  pose proof (loop_body_shaped _ _ _ _ _ _ _ _ _ _ _ Hl Hsh) as Hsh'.
  split; [|split; [done|]].
  - destruct Hsh as [Hsa Hsb].
    apply loop_body_Ret in Hl as (g1 & _ & _ & _ & _ & _ & _ & _ & Hu).
    destruct (Nat.eqb (tr_coin t) 0).
    + apply update_b_Ret in Hu. by eapply td_update_spec_max_action.
    + apply update_a_Ret in Hu. by eapply td_update_spec_max_action.
  - split; apply elem_of_dom.
    + rewrite Hda. apply elem_of_union_l. by apply elem_of_singleton.
    + rewrite Hdb. apply elem_of_union_l. by apply elem_of_singleton.
Qed.

(** X2. Rows never change length: when the initial tables have rows of
    [num_actions] entries, so have the final tables and the merged table
    that a call returns. *)
Theorem rows_keep_length fuel (env : E) policy num_episodes Qa_arg Qb_arg
    gamma alpha show (g : G) n res :
  get_num_actions (State:=State) (F:=F) env = Ret n ->
  shaped n (install_tables policy Qa_arg Qb_arg) ->
  double_q_learning fuel env policy num_episodes Qa_arg Qb_arg gamma alpha show g
    = Ret res ->
  shaped n (res_policy res) /\ well_shaped n (res_Q res).
Proof.
  intros Hn Hsh Hd.
  apply double_q_learning_Ret in Hd
    as (n' & ls & Hn' & He & _ & _ & _ & Hm & -> & _).
  assert (n' = n) as -> by congruence.
  apply episodes_Ret in He as (eps & _ & _ & _ & _ & _ & _ & Hreach).
  specialize (Hreach _ (reach_initial _ _ _ _)). simpl in Hreach.
  pose proof (reachable_shaped _ _ _ _ _ Hsh Hreach) as Hfinal.
  split; [done|]. destruct Hfinal as [Hsa Hsb].
  apply merge_tables_Ret in Hm as [Hdom HQ].
  intros s q Hq.
  assert (Hin : s ∈ dom (Q_a (ls_policy ls))).
  { rewrite <- Hdom. by eapply elem_of_dom_2. }
  apply elem_of_dom in Hin as [va Hva].
  destruct (HQ s va Hva) as (vb & v & Hvb & Hadd & Hv).
  assert (q = v) as -> by congruence.
  rewrite np_add_same_length in Hadd
    by (rewrite (Hsa _ _ Hva), (Hsb _ _ Hvb); done).
  injection Hadd as <-. rewrite length_zip_with.
  rewrite (Hsa _ _ Hva), (Hsb _ _ Hvb). lia.
Qed.

(** X3. Keys are only ever added: an episode start adds the start state, a
    completed pass adds [next_state], to both tables alike, and nothing the
    learner does removes a key. *)
Theorem tables_only_grow n gamma alpha p0 :
  (forall (env : E) (g : G),
     dom (Q_a (ep_policy (episode_start n p0 env g)))
       = {[(reset env).1]} ∪ dom (Q_a p0) /\
     dom (Q_b (ep_policy (episode_start n p0 env g)))
       = {[(reset env).1]} ∪ dom (Q_b p0)) /\
  (forall (env : E) (g : G) state t p' env' g',
     loop_body n gamma alpha p0 env g state = Ret (t, p', env', g') ->
     dom (Q_a p') = {[tr_next_state t]} ∪ dom (Q_a p0) /\
     dom (Q_b p') = {[tr_next_state t]} ∪ dom (Q_b p0)) /\
  (forall p, reachable (G:=G) (E:=E) n gamma alpha p0 p ->
     dom (Q_a p0) ⊆ dom (Q_a p) /\ dom (Q_b p0) ⊆ dom (Q_b p)).
Proof.
  split; [|split].
  - intros env g. apply episode_start_dom.
  - intros env g state t p' env' g' Hl. by eapply loop_body_dom.
  - intros p Hr.
    induction Hr as [|p env g _ [IHa IHb]|p env g state t p' env' g' _ [IHa IHb] Hl].
    + done.
    + destruct (episode_start_dom n p env g) as [-> ->].
      split; by apply union_subseteq_r'.
    + destruct (loop_body_dom _ _ _ _ _ _ _ _ _ _ _ Hl) as [-> ->].
      split; by apply union_subseteq_r'.
Qed.

Lemma td_update_spec_frame n gamma alpha Qu Qo state action next_state reward m Qu' Qo' :
  td_update_spec n gamma alpha Qu Qo state action next_state reward m Qu' Qo' ->
  (forall k v, Qu !! k = Some v ->
     exists v', Qu' !! k = Some v' /\ length v' = length v /\
       forall j, k <> state \/ j <> action -> v' !! j = v !! j) /\
  (forall k v, Qo !! k = Some v -> Qo' !! k = Some v).
Proof.
  intros (vu & vo & row & old & boot & _ & _ & _ & Hrow & _ & _ & -> & ->).
  split.
  - intros k v Hk.
    pose proof (setdefault_keeps Qu next_state k (np_zeros n) v Hk) as Hk1.
    destruct (decide (state = k)) as [->|Hne].
    + rewrite lookup_insert_eq. assert (row = v) as -> by congruence.
      eexists; split; [done|]. split; [apply length_insert|].
      intros j [?|Hj]; [done|]. by apply list_lookup_insert_ne.
    + rewrite lookup_insert_ne by done. eauto.
  - intros k v Hk. by apply setdefault_keeps.
Qed.

(** X4. A pass writes at one index only: after a pass that completes, every
    row that was in a table is still there, with the same length and the
    same entries at every index other than [action]; and from well-formed
    tables the pass does complete. *)
Theorem pass_keeps_other_entries n gamma alpha policy (env : E) (g : G) state :
  (forall t policy' env' g',
     loop_body n gamma alpha policy env g state = Ret (t, policy', env', g') ->
     (forall k v, Q_a policy !! k = Some v ->
        exists v', Q_a policy' !! k = Some v' /\ length v' = length v /\
          forall j, j <> tr_action t -> v' !! j = v !! j) /\
     (forall k v, Q_b policy !! k = Some v ->
        exists v', Q_b policy' !! k = Some v' /\ length v' = length v /\
          forall j, j <> tr_action t -> v' !! j = v !! j)) /\
  (randint_in_range (F:=F) (G:=G) -> 0 < n -> shaped n policy ->
   is_Some (Q_a policy !! state) -> is_Some (Q_b policy !! state) ->
   exists t policy' env' g',
     loop_body n gamma alpha policy env g state = Ret (t, policy', env', g') /\
     tr_coin t < 2).
Proof.
  split; [|apply loop_body_completes].
  intros t policy' env' g' Hl.
  apply loop_body_pass in Hl as (g1 & _ & _ & _ & _ & _ & Hu).
  assert (Hgen : forall Qu Qo Qu' Qo',
    td_update_spec n gamma alpha Qu Qo state (tr_action t) (tr_next_state t)
      (tr_reward t) (tr_max_action t) Qu' Qo' ->
    (forall k v, Qu !! k = Some v ->
       exists v', Qu' !! k = Some v' /\ length v' = length v /\
         forall j, j <> tr_action t -> v' !! j = v !! j) /\
    (forall k v, Qo !! k = Some v ->
       exists v', Qo' !! k = Some v' /\ length v' = length v /\
         forall j, j <> tr_action t -> v' !! j = v !! j)).
  { intros Qu Qo Qu' Qo' Hspec.
    apply td_update_spec_frame in Hspec as [Hown Hother]. split.
    - intros k v Hk. destruct (Hown k v Hk) as (v' & Hv' & Hlen & Hj).
      exists v'. split; [done|]. split; [done|]. intros j Hne. apply Hj. by right.
    - intros k v Hk. exists v. split; [by apply Hother|]. done. }
  destruct (decide (tr_coin t = 0)).
  - destruct (Hgen _ _ _ _ Hu) as [Hqb Hqa]. done.
  - destruct (Hgen _ _ _ _ Hu) as [Hqa Hqb]. done.
Qed.

Lemma path_from_states (s : State) (ts : list (transition State F)) :
  path_from s ts -> ts <> [] ->
  s ∈ (list_to_set (tr_state <$> ts) : gset State) /\
  (list_to_set (tr_state <$> ts) : gset State) ⊆ {[s]} ∪ next_states ts.
Proof.
  revert s. induction ts as [|t ts IH]; intros s Hp Hne; [done|].
  destruct Hp as [Hs Hp]. unfold next_states. simpl. split.
  - rewrite Hs. apply elem_of_union_l. by apply elem_of_singleton.
  - destruct ts as [|t' ts].
    + simpl. rewrite Hs. set_solver.
    + destruct (IH _ Hp) as [_ Hsub]; [done|].
      unfold next_states in Hsub. rewrite Hs. set_solver.
Qed.

(** The passes of one run of the [while True] loop form a path out of the
    state the loop was entered in, and the loop adds exactly the states the
    passes ended in to the key sets. *)
Lemma while_loop_path fuel n gamma alpha st st' :
  while_loop fuel n gamma alpha st = Ret st' ->
  exists ts,
    ep_trace st' = ep_trace st ++ ts /\ ts <> [] /\
    path_from (ep_state st) ts /\
    dom (Q_a (ep_policy st')) = dom (Q_a (ep_policy st)) ∪ next_states ts /\
    dom (Q_b (ep_policy st')) = dom (Q_b (ep_policy st)) ∪ next_states ts.
Proof.
  revert st. induction fuel as [|fuel IH]; intros st Hw; [discriminate|].
  simpl in Hw. inv_bind Hw as [[[t policy'] env'] g'] Hl.
  pose proof (loop_body_dom _ _ _ _ _ _ _ _ _ _ _ Hl) as [Hda Hdb].
  pose proof Hl as Hl'. apply loop_body_Ret in Hl' as (_ & _ & _ & _ & Hst & _).
  destruct (tr_done t).
  - injection Hw as <-. simpl. exists [t]. unfold next_states. simpl.
    split; [done|]. split; [done|]. split; [done|]. split.
    + rewrite Hda. set_solver.
    + rewrite Hdb. set_solver.
  - apply IH in Hw as (ts & Htr & _ & Hp & Ha & Hb). simpl in *.
    exists (t :: ts). unfold next_states in *. simpl.
    split; [by rewrite Htr, <- app_assoc|].
    split; [done|]. split; [done|]. split.
    + rewrite Ha, Hda. set_solver.
    + rewrite Hb, Hdb. set_solver.
Qed.

Lemma visited_app (ts1 ts2 : list (transition State F)) :
  visited (ts1 ++ ts2) = visited ts1 ∪ visited ts2.
Proof.
  unfold visited, next_states. rewrite !fmap_app, !list_to_set_app_L. set_solver.
Qed.

Lemma path_key_sets (A S N V : gset State) (s : State) :
  s ∈ S -> S ⊆ {[s]} ∪ N ->
  ({[s]} ∪ A) ∪ N ∪ V = A ∪ ((S ∪ N) ∪ V).
Proof. intros Hin Hsub. apply set_eq. intros x. set_unfold. naive_solver. Qed.

Lemma episodes_paths fuel count n gamma alpha ls ls' :
  episodes fuel count n gamma alpha ls = Ret ls' ->
  exists eps,
    ls_episodes ls' = ls_episodes ls ++ eps /\
    Forall (fun ep => ep <> [] /\ exists env : E, path_from (reset env).1 ep) eps /\
    dom (Q_a (ls_policy ls')) = dom (Q_a (ls_policy ls)) ∪ visited (concat eps) /\
    dom (Q_b (ls_policy ls')) = dom (Q_b (ls_policy ls)) ∪ visited (concat eps).
Proof.
  revert ls. induction count as [|count IH]; intros ls He; simpl in He.
  - injection He as <-. exists []. rewrite app_nil_r. simpl.
    unfold visited, next_states. simpl.
    split; [done|]. split; [done|]. split; set_solver.
  - inv_bind He as st Hw.
    apply while_loop_path in Hw as (ts & Htr & Hne & Hp & Ha & Hb).
    destruct (episode_start_fields n (ls_policy ls) (ls_env ls) (ls_rng ls))
      as (_ & _ & Htr0 & Hst0 & _ & _ & Hqa & Hqb & _).
    rewrite Htr0 in Htr. rewrite Hst0 in Hp. rewrite Hqa in Ha. rewrite Hqb in Hb.
    rewrite dom_insert_L in Ha, Hb. simpl in Htr.
    destruct (path_from_states _ _ Hp Hne) as [Hin Hsub].
    apply IH in He as (eps & Heps & Hall & Has & Hbs). simpl in *.
    exists (ts :: eps). split; [|split; [|split]].
    + by rewrite Heps, Htr, <- app_assoc.
    + constructor; [|done]. split; [done|]. by exists (ls_env ls).
    + simpl. rewrite visited_app, Has, Ha. unfold visited at 1.
      by apply path_key_sets.
    + simpl. rewrite visited_app, Hbs, Hb. unfold visited at 1.
      by apply path_key_sets.
Qed.

(** X5. Every episode makes at least one pass, so no returned episode length
    is zero. The passes of an episode start in the state that [env.reset()]
    returned for the environment as the episode before left it, each pass
    starts in the state where the one before it ended and records what
    [env.step] answered, and the call leaves the environment as the last
    step left it. *)
Theorem episodes_are_paths fuel (env : E) policy num_episodes Qa_arg Qb_arg
    gamma alpha show (g : G) res :
  double_q_learning fuel env policy num_episodes Qa_arg Qb_arg gamma alpha show g
    = Ret res ->
  Forall (fun len => 1 <= len) (res_episode_lengths res) /\
  env_run env (res_episodes res) /\
  res_env res = envs_after env (res_episodes res).
Proof.
  intros Hd.
  apply double_q_learning_Ret in Hd
    as (n & ls & _ & He & _ & -> & _ & _ & _ & -> & _ & ->).
  pose proof He as He'.
  apply episodes_run in He' as (eps' & Heps' & Hrun & Hend & Hall).
  apply episodes_Ret in He as (eps & _ & Heps & Hstats & _).
  cbn [ls_stats ls_episodes ls_env] in Hstats, Heps, Heps', Hrun, Hend.
  rewrite app_nil_l in Hstats, Heps, Heps'.
  assert (eps' = eps) as -> by congruence.
  rewrite Hstats, Heps, stats_lengths.
  split; [|done].
  apply Forall_fmap. eapply Forall_impl; [exact Hall|].
  intros ep (t & ts & -> & _). simpl. lia.
Qed.

(** X6. The merged table has a row for exactly the states that were keys of the
    initial [Q_a] or were visited, as the start or the end of a pass. *)
Theorem merged_table_keys fuel (env : E) policy num_episodes Qa_arg Qb_arg
    gamma alpha show (g : G) res :
  double_q_learning fuel env policy num_episodes Qa_arg Qb_arg gamma alpha show g
    = Ret res ->
  dom (res_Q res)
  = dom (Q_a (install_tables policy Qa_arg Qb_arg))
    ∪ visited (concat (res_episodes res)).
Proof.
  intros Hd.
  apply double_q_learning_Ret in Hd
    as (n & ls & _ & He & _ & _ & _ & Hm & _ & _ & _ & ->).
  apply episodes_paths in He as (eps & Heps & _ & Ha & _).
  apply merge_tables_Ret in Hm as [-> _]. simpl in *. by rewrite Heps, Ha.
Qed.

(** X7. [range(num_episodes)] is empty for every [num_episodes <= 0], negative
    ones included: no episode runs and unpacking the empty [zip( *stats)]
    raises [ValueError]. *)
Theorem nonpositive_episodes_raise fuel (env : E) policy num_episodes Qa_arg Qb_arg
    gamma alpha show (g : G) n :
  (num_episodes <= 0)%Z ->
  get_num_actions (State:=State) (F:=F) env = Ret n ->
  double_q_learning fuel env policy num_episodes Qa_arg Qb_arg gamma alpha show g
    = Raise ValueError.
Proof.
  intros Hle Hn. unfold double_q_learning. rewrite Hn, bind_Ret_l.
  replace (episode_range show num_episodes) with 0; [done|].
  unfold episode_range. destruct show; lia.
Qed.

(** X8. The number of actions is [env.action_space.n] whenever that attribute
    exists, whatever [env.nA] holds; an environment with neither attribute
    makes the call raise [AttributeError] before any episode is run. *)
Theorem action_count_lookup (env : E) :
  (forall n, action_space_n (State:=State) (F:=F) env = Some n ->
     get_num_actions (State:=State) (F:=F) env = Ret n) /\
  (action_space_n (State:=State) (F:=F) env = None ->
   nA (State:=State) (F:=F) env = None ->
   forall fuel policy num_episodes Qa_arg Qb_arg gamma alpha show (g : G),
     double_q_learning fuel env policy num_episodes Qa_arg Qb_arg gamma alpha show g
       = Raise AttributeError).
Proof.
  split.
  - intros n Hn. apply get_num_actions_Ret. by left.
  - intros Hs Hn fuel policy ne Qa_arg Qb_arg gamma alpha show g.
    unfold double_q_learning, get_num_actions. by rewrite Hs, Hn.
Qed.

Lemma while_loop_never_done fuel n gamma alpha st :
  (forall (env : E) action, (step (State:=State) (F:=F) env action).1.2 = false) ->
  ~ returns (while_loop fuel n gamma alpha st).
Proof.
  intros Hnever. revert st. induction fuel as [|fuel IH]; intros st [st' Hw].
  - discriminate.
  - simpl in Hw. inv_bind Hw as [[[t policy'] env'] g'] Hl.
    apply loop_body_Ret in Hl as (g1 & _ & Hstep & _).
    pose proof (Hnever (ep_env st) (tr_action t)) as Hd.
    rewrite Hstep in Hd. simpl in Hd. rewrite Hd in Hw.
    eapply IH. by eexists.
Qed.

(** X9. The episode loop has no step cap: with an environment that never
    signals [done], a call for at least one episode does not return, however
    many passes it is given. *)
Theorem never_done_never_returns fuel (env : E) policy num_episodes Qa_arg Qb_arg
    gamma alpha show (g : G) :
  (forall (env' : E) action,
     (step (State:=State) (F:=F) env' action).1.2 = false) ->
  (1 <= num_episodes)%Z ->
  ~ returns (double_q_learning fuel env policy num_episodes Qa_arg Qb_arg
               gamma alpha show g).
Proof.
  intros Hnever Hne [res Hd].
  apply double_q_learning_Ret in Hd as (n & ls & _ & He & _).
  destruct (Z.to_nat num_episodes) as [|count] eqn:Hc; [lia|].
  simpl in He. inv_bind He as st Hw.
  eapply while_loop_never_done; [exact Hnever|]. by eexists.
Qed.

Lemma argmax_scan_constant (x : F) (besti i k : nat) :
  fleb x x = true -> argmax_scan x besti i (replicate k x) = besti.
Proof.
  intros Hx. revert i. induction k as [|k IH]; intros i; simpl; [done|].
  by rewrite Hx.
Qed.

Lemma np_argmax_constant (x : F) (k : nat) :
  fleb x x = true -> 0 < k -> np_argmax (replicate k x) = Ret 0.
Proof.
  intros Hx Hk. destruct k as [|k]; [lia|]. simpl.
  by rewrite argmax_scan_constant.
Qed.

(** X10. In a state whose rows are still all zero in both tables (a start state,
    or a state met for the first time), the greedy branch of the policy
    picks action 0. *)
Theorem fresh_state_greedy_action n (self : EpsilonGreedyPolicy State F)
    (obs : State) (g : G) :
  fleb (fadd fzero fzero) (fadd fzero fzero) = true ->
  0 < n ->
  Q_a self !! obs = Some (np_zeros n) ->
  Q_b self !! obs = Some (np_zeros n) ->
  fleb (random_uniform g).1 (epsilon self) = false ->
  sample_action self obs g = Ret (0, (random_uniform g).2).
Proof.
  intros Hrefl Hn Ha Hb Hdraw.
  unfold sample_action, dict_getitem. rewrite Ha, Hb. simpl.
  rewrite np_add_same_length by done. simpl.
  destruct (random_uniform g) as [draw g1]. simpl in *. rewrite Hdraw.
  unfold np_zeros. rewrite zip_with_replicate.
  by rewrite np_argmax_constant.
Qed.

(** X11. When a pass meets a [next_state] that the table it updates has no row
    for, the row is created as zeros and the bootstrap action is 0. *)
Theorem unseen_next_state_max_action n gamma alpha policy (env : E) (g : G) state
    t policy' env' g' :
  fleb (fzero : F) fzero = true ->
  loop_body n gamma alpha policy env g state = Ret (t, policy', env', g') ->
  (if Nat.eqb (tr_coin t) 0 then Q_b policy else Q_a policy) !! tr_next_state t
    = None ->
  tr_max_action t = 0.
Proof.
  intros Hrefl Hl Hnone.
  apply loop_body_Ret in Hl as (g1 & _ & _ & _ & _ & _ & _ & _ & Hu).
  assert (Hgen : forall Qu Qo Qu' Qo',
    td_update_spec n gamma alpha Qu Qo state (tr_action t) (tr_next_state t)
      (tr_reward t) (tr_max_action t) Qu' Qo' ->
    Qu !! tr_next_state t = None -> tr_max_action t = 0).
  { intros Qu Qo Qu' Qo' (vu & vo & row & old & boot & Hvu & _ & Hm & _) Hn.
    rewrite setdefault_lookup, setdefault_fst, Hn in Hvu. simpl in Hvu.
    injection Hvu as <-.
    destruct n as [|n]; [discriminate|].
    unfold np_zeros in Hm. rewrite np_argmax_constant in Hm by (done || lia).
    by injection Hm. }
  destruct (Nat.eqb (tr_coin t) 0).
  - apply update_b_Ret in Hu. by eapply Hgen.
  - apply update_a_Ret in Hu. by eapply Hgen.
Qed.

(** X12. [sample_action] on a state that one of the tables has no row for raises
    [KeyError]. *)
Theorem sample_action_missing_state (self : EpsilonGreedyPolicy State F)
    (obs : State) (g : G) :
  Q_a self !! obs = None \/ Q_b self !! obs = None ->
  sample_action self obs g = Raise KeyError.
Proof.
  intros Hmiss. unfold sample_action, dict_getitem.
  destruct (Q_a self !! obs) as [va|]; [|done].
  destruct Hmiss as [?|Hb]; [done|]. by rewrite Hb.
Qed.

End FurtherProperties.

(** * The further properties at work *)

Lemma treadmill_never_done (env : treadmill_env) (action : nat) :
  (step (State:=nat) (F:=Z) env action).1.2 = false.
Proof. by destruct env. Qed.

Lemma pass_is_safe_witness :
  exists t policy' env' g',
    loop_body 2 1%Z 1%Z seeded_policy 0 [5; 1] 0 = Ret (t, policy', env', g') /\
    tr_action t < 2 /\ tr_max_action t < 2 /\
    shaped 2 policy' /\
    is_Some (Q_a policy' !! tr_next_state t) /\
    is_Some (Q_b policy' !! tr_next_state t).
Proof.
  apply (pass_is_safe 2 1%Z 1%Z seeded_policy 0 [5; 1] 0 tape_in_range).
  - lia.
  - exact seeded_policy_shaped.
  - by eexists.
  - by eexists.
Defined.

Lemma rows_keep_length_witness :
  shaped 2 (res_policy two_episodes_result) /\
  well_shaped 2 (res_Q two_episodes_result).
Proof.
  apply (rows_keep_length 10 0 (empty_policy 5) 2 None None 1%Z 1%Z true
           two_episodes_tape 2 two_episodes_result).
  - reflexivity.
  - split; apply well_shaped_empty.
  - exact two_episodes_runs.
Defined.

Lemma tables_only_grow_witness :
  dom (Q_a seeded_policy_after) = {[1]} ∪ dom (Q_a seeded_policy) /\
  dom (Q_b seeded_policy_after) = {[1]} ∪ dom (Q_b seeded_policy).
Proof.
  destruct (tables_only_grow (G:=list nat) (E:=nat) 2 1%Z 1%Z seeded_policy)
    as (_ & Hpass & _).
  exact (Hpass 0 [5; 1] 0 seeded_pass seeded_policy_after 1 [] seeded_pass_runs).
Defined.

(** [tails_pass] takes action 1: entry 0 of every row is as it was. *)
Lemma pass_keeps_other_entries_witness :
  ((forall k v, Q_a seeded_policy !! k = Some v ->
      exists v', Q_a tails_policy_after !! k = Some v' /\ length v' = length v /\
        forall j, j <> 1 -> v' !! j = v !! j) /\
   (forall k v, Q_b seeded_policy !! k = Some v ->
      exists v', Q_b tails_policy_after !! k = Some v' /\ length v' = length v /\
        forall j, j <> 1 -> v' !! j = v !! j)) /\
  (exists t policy' env' g',
     loop_body 2 1%Z 1%Z seeded_policy 0 [0; 1; 0] 0 = Ret (t, policy', env', g') /\
     tr_coin t < 2).
Proof.
  destruct (pass_keeps_other_entries 2 1%Z 1%Z seeded_policy 0 [0; 1; 0] 0)
    as [Hkeep Hret].
  split.
  - exact (Hkeep tails_pass tails_policy_after 1 [] tails_pass_runs).
  - exact (Hret tape_in_range (Nat.lt_0_succ 1) seeded_policy_shaped
                (mk_is_Some _ _ eq_refl) (mk_is_Some _ _ eq_refl)).
Defined.

Lemma episodes_are_paths_witness :
  Forall (fun len => 1 <= len) (res_episode_lengths two_episodes_result) /\
  env_run 0 (res_episodes two_episodes_result) /\
  res_env two_episodes_result = envs_after 0 (res_episodes two_episodes_result).
Proof.
  exact (episodes_are_paths 10 0 (empty_policy 5) 2 None None 1%Z 1%Z true
           two_episodes_tape two_episodes_result two_episodes_runs).
Defined.

Lemma merged_table_keys_witness :
  dom (res_Q two_episodes_result)
  = dom (Q_a (install_tables (empty_policy 5) None None))
    ∪ visited (concat (res_episodes two_episodes_result)).
Proof.
  exact (merged_table_keys 10 0 (empty_policy 5) 2 None None 1%Z 1%Z true
           two_episodes_tape two_episodes_result two_episodes_runs).
Defined.

Lemma nonpositive_episodes_raise_witness :
  double_q_learning 10 0 (empty_policy 5) (-3) None None 1%Z 1%Z true
    two_episodes_tape = Raise ValueError.
Proof.
  apply (nonpositive_episodes_raise 10 0 (empty_policy 5) (-3) None None
           1%Z 1%Z true two_episodes_tape 2).
  - lia.
  - reflexivity.
Defined.

Lemma action_count_lookup_witness :
  double_q_learning 10 Bare (empty_policy 5) 2 None None 1%Z 1%Z true
    two_episodes_tape = Raise AttributeError.
Proof.
  destruct (action_count_lookup (State:=nat) (F:=Z) (G:=list nat) Bare)
    as [_ Hbare].
  exact (Hbare eq_refl eq_refl 10 (empty_policy 5) 2%Z None None 1%Z 1%Z true
           two_episodes_tape).
Defined.

Lemma never_done_never_returns_witness :
  ~ returns (double_q_learning 10 (Treadmill 0) (empty_policy 5) 1 None None
               1%Z 1%Z true two_episodes_tape).
Proof.
  apply (never_done_never_returns 10 (Treadmill 0) (empty_policy 5) 1 None None
           1%Z 1%Z true two_episodes_tape treadmill_never_done).
  lia.
Defined.

Lemma fresh_state_greedy_action_witness :
  sample_action fresh_policy 0 [5; 1] = Ret (0, [1]).
Proof.
  exact (fresh_state_greedy_action 2 fresh_policy 0 [5; 1]
           eq_refl (Nat.lt_0_succ 1) eq_refl eq_refl eq_refl).
Defined.

Lemma unseen_next_state_max_action_witness : tr_max_action fresh_pass = 0.
Proof.
  apply (unseen_next_state_max_action 2 1%Z 1%Z fresh_policy 0 [5; 1] 0
           fresh_pass fresh_policy_after 1 []).
  - reflexivity.
  - exact fresh_pass_runs.
  - reflexivity.
Defined.

Lemma sample_action_missing_state_witness :
  sample_action (empty_policy 5) 0 two_episodes_tape = Raise KeyError.
Proof.
  apply (sample_action_missing_state (empty_policy 5) 0 two_episodes_tape).
  left. reflexivity.
Defined.
